(** * typeix: the provider registry (Injector) and the request orchestrator

    A shallow embedding of the class [Injector] and of the class [Request].
    JavaScript objects live in an explicit store, addressed by references,
    because the programs mutate objects that are reachable along several
    paths (a parent's child array is edited by the children while the parent
    iterates over it).  Promise chains are written with a small
    state-and-exception monad, and what the environment does (the router
    settling, body chunks arriving, the response finishing or closing) comes
    in as signals. *)

From stdpp Require Import gmap strings list fin_maps.
From Stdlib Require Import ZArith.

Open Scope Z_scope.
Open Scope nat_scope.

(** ** JavaScript values *)

(** The values that flow through the two programs.  A plain object is a
    record of named properties; an [HttpError] keeps its four properties
    apart because the pipeline tests [instanceof HttpError]. *)
#[warnings="-register-all"]
Inductive Value : Type :=
| VUndefined
| VNull
| VBool (b : bool)
| VNum (n : Z)
| VStr (s : string)
| VBuffer (bytes : string)
| VFunc (name : string)
| VRecord (fields : list (string * Value))
| VHttpError (code : Z) (message : Value) (data : Value) (stack : Value).

(** Modelled from the spec: [isString] of [core], which is not among the
    sources at hand; it tells a textual payload. *)
Definition isString (v : Value) : bool :=
  match v with VStr _ => true | _ => false end.

(** Modelled from the spec: [isFunction] of [core], which is not among the
    sources at hand; it tells a constructor function or a hook. *)
Definition isFunction (v : Value) : bool :=
  match v with VFunc _ => true | _ => false end.

(** Modelled from the spec: [isPresent] of [core], which is not among the
    sources at hand; a value is present unless it is [undefined] or
    [null]. *)
Definition isPresent (v : Value) : bool :=
  match v with VUndefined | VNull => false | _ => true end.

(** [v instanceof Buffer] and [v instanceof HttpError]. *)
Definition instanceof_Buffer (v : Value) : bool :=
  match v with VBuffer _ => true | _ => false end.

Definition instanceof_HttpError (v : Value) : bool :=
  match v with VHttpError _ _ _ _ => true | _ => false end.

(** The [typeof] operator. *)
Definition typeof (v : Value) : string :=
  match v with
  | VUndefined => "undefined"
  | VBool _ => "boolean"
  | VNum _ => "number"
  | VStr _ => "string"
  | VFunc _ => "function"
  | _ => "object"
  end.

(** What a computation yields: a value, or a thrown one. *)
Inductive Outcome (E A : Type) : Type :=
| Returned (a : A)
| Thrown (e : E).
Arguments Returned {E A} a.
Arguments Thrown {E A} e.

(** [contains s t]: the string [s] occurs somewhere in [t]. *)
Fixpoint contains (s t : string) : bool :=
  String.prefix s t ||
  match t with
  | EmptyString => false
  | String _ t' => contains s t'
  end.

(** ** Arrays: [indexOf], [splice], [forEach] *)

Module JsArray.

(** [l.indexOf(x)]: the first position of [x], or -1. *)
Fixpoint indexOf_from (l : list nat) (x : nat) (i : Z) : Z :=
  match l with
  | [] => (-1)%Z
  | y :: t => if decide (y = x) then i else indexOf_from t x (i + 1)%Z
  end.

Definition indexOf (l : list nat) (x : nat) : Z := indexOf_from l x 0%Z.

(** [l.splice(start, deleteCount)], the array left behind.  A negative
    [start] counts from the end, so [splice(-1, 1)] removes the last
    element. *)
Definition splice (start deleteCount : Z) (l : list nat) : list nat :=
  let len := Z.of_nat (length l) in
  let from :=
    if (start <? 0)%Z then Z.max (len + start) 0 else Z.min start len in
  let count := Z.min (Z.max deleteCount 0) (len - from) in
  take (Z.to_nat from) l ++ drop (Z.to_nat (from + count)) l.

End JsArray.

(** ** The container store *)

Module Injector.

(** A lookup key: a class, compared by identity, or a string token. *)
Inductive Key : Type :=
| KClass (cid : nat) (name : string)
| KToken (token : string).

#[export] Instance Key_eq_dec : EqDecision Key.
Proof. solve_decision. Defined.

#[export] Instance Key_countable : Countable Key.
Proof.
  refine (inj_countable'
    (fun k => match k with
              | KClass c n => inl (c, n)
              | KToken s => inr s
              end)
    (fun x => match x with
              | inl (c, n) => KClass c n
              | inr s => KToken s
              end) _).
  by intros [].
Defined.

(** What a container binds a key to: a value handed in as [useValue], an
    instance it has built, or a container (itself, under the key
    [Injector]).  Instances and containers are references. *)
Inductive Stored : Type :=
| SValue (v : Value)
| SInstance (id : nat)
| SInjector (a : nat).

Definition stored_isFunction (s : Stored) : bool :=
  match s with SValue v => isFunction v | _ => false end.

(** The key under which a container registers itself: the class
    [Injector]. *)
Definition Injector_class : Key := KClass 0 "Injector".

(** A class as the container sees it: its name, whether its prototype has
    an own property [afterConstruct], and what the member [afterConstruct]
    of a new instance evaluates to (own or inherited; [VUndefined] when
    there is none). *)
Record Class : Type := {
  class_id : nat;
  class_name : string;
  prototype_hasOwn_afterConstruct : bool;
  member_afterConstruct : Value
}.

Definition class_key (c : Class) : Key := KClass (class_id c) (class_name c).

(** [IProvider]. *)
Record IProvider : Type := {
  provide : Key;
  useClass : option Class;
  useValue : Value
}.

(** [IInjectKey]. *)
Record IInjectKey : Type := {
  key : string;
  value : Key;
  isMutable : bool
}.

(** One container.  [_children] is a reference to an array in the store:
    [destroy] iterates over that array while [removeChild] edits it. *)
Record InjectorObj : Type := {
  _uid : string;
  _providers : gmap Key Stored;
  _children : nat;
  parent : option nat
}.

(** An instance built by [Reflect.construct]: its class, the constructor
    arguments, and the properties defined on it afterwards. *)
Record Instance : Type := {
  inst_class : Class;
  inst_args : list Stored;
  inst_props : list (string * (Stored * bool))
}.

(** What the container makes happen outside itself. *)
Inductive Event : Type :=
| EvConstruct (id : nat) (c : Class) (args : list Stored)
| EvDefineProperty (id : nat) (name : string) (v : Stored) (writable : bool)
| EvAfterConstruct (id : nat) (args : list Stored).

Record Heap : Type := {
  injectors : gmap nat InjectorObj;
  arrays : gmap nat (list nat);
  instances : gmap nat Instance;
  events : list Event
}.

Definition empty_heap : Heap :=
  {| injectors := ∅; arrays := ∅; instances := ∅; events := [] |}.

Definition set_injector (a : nat) (o : InjectorObj) (h : Heap) : Heap :=
  {| injectors := <[a := o]> (injectors h);
     arrays := arrays h;
     instances := instances h;
     events := events h |}.

Definition set_array (r : nat) (l : list nat) (h : Heap) : Heap :=
  {| injectors := injectors h;
     arrays := <[r := l]> (arrays h);
     instances := instances h;
     events := events h |}.

(** [new Injector(parent)] with the identifier [uuid()] returned. *)
Definition new_Injector (uid : string) (p : option nat) (h : Heap)
  : nat * Heap :=
  let a := fresh (dom (injectors h)) in
  let r := fresh (dom (arrays h)) in
  (a, set_injector a
        {| _uid := uid; _providers := ∅; _children := r; parent := p |}
        (set_array r [] h)).

(** [has(key)]. *)
Definition has (this : nat) (k : Key) (h : Heap) : option bool :=
  o ← injectors h !! this;
  Some (bool_decide (is_Some (_providers o !! k))).

(** [set(key, value)]. *)
Definition set (this : nat) (k : Key) (v : Stored) (h : Heap) : option Heap :=
  o ← injectors h !! this;
  Some (set_injector this
          {| _uid := _uid o;
             _providers := <[k := v]> (_providers o);
             _children := _children o;
             parent := parent o |} h).

(** [setChild(injector)]: [this._children.push(injector)]. *)
Definition setChild (this injector : nat) (h : Heap) : option Heap :=
  o ← injectors h !! this;
  l ← arrays h !! _children o;
  Some (set_array (_children o) (l ++ [injector]) h).

(** [removeChild(injector)]:
    [this._children.splice(this._children.indexOf(injector), 1)]. *)
Definition removeChild (this injector : nat) (h : Heap) : option Heap :=
  o ← injectors h !! this;
  l ← arrays h !! _children o;
  Some (set_array (_children o)
          (JsArray.splice (JsArray.indexOf l injector) 1 l) h).

(** [Array.prototype.forEach] on the array at reference [r]: the length is
    read once, then each index below it is visited if it is still present
    in the array as it is at that moment.  [todo] counts the indices left,
    [k] is the current one. *)
Fixpoint forEach_from (cb : nat -> Heap -> option Heap) (r : nat)
    (todo k : nat) (h : Heap) : option Heap :=
  match todo with
  | 0 => Some h
  | S todo' =>
      l ← arrays h !! r;
      match l !! k with
      | Some x => h' ← cb x h; forEach_from cb r todo' (S k) h'
      | None => forEach_from cb r todo' (S k) h
      end
  end.

Definition forEach (cb : nat -> Heap -> option Heap) (r : nat) (h : Heap)
  : option Heap :=
  l ← arrays h !! r;
  forEach_from cb r (length l) 0 h.

(** [destroy()].  [None] stands for a run that does not finish within
    [fuel] nested calls or that follows a reference the store does not
    hold. *)
Fixpoint destroy (fuel : nat) (this : nat) (h : Heap) : option Heap :=
  match fuel with
  | 0 => None
  | S n =>
      o ← injectors h !! this;
      h1 ← match parent o with
           | Some p => removeChild p this h
           | None => Some h
           end;
      o1 ← injectors h1 !! this;
      h2 ← forEach (destroy n) (_children o1) h1;
      (* this._children = [] *)
      o2 ← injectors h2 !! this;
      let r := fresh (dom (arrays h2)) in
      let h3 := set_injector this
                  {| _uid := _uid o2; _providers := _providers o2;
                     _children := r; parent := parent o2 |}
                  (set_array r [] h2) in
      (* this.parent = undefined *)
      o3 ← injectors h3 !! this;
      let h4 := set_injector this
                  {| _uid := _uid o3; _providers := _providers o3;
                     _children := _children o3; parent := None |} h3 in
      (* this._providers.clear() *)
      o4 ← injectors h4 !! this;
      Some (set_injector this
              {| _uid := _uid o4; _providers := ∅;
                 _children := _children o4; parent := parent o4 |} h4)
  end.

Section Lookup.

(** [toString] of [core], applied to a string token. *)
Variable toString : string -> string.

Definition key_label (k : Key) : string :=
  match k with
  | KClass _ name => name
  | KToken s => toString s
  end.

(** [isFunction(Class.provide) ? Class.provide.name : Class.provide]
    inside a template literal. *)
Definition requester_label (c : IProvider) : string :=
  match provide c with
  | KClass _ name => name
  | KToken s => s
  end.

(** The two messages of [get]. *)
Definition no_provider_message (k : Key) (c : option IProvider)
    (uid : string) : string :=
  match c with
  | Some c =>
      "No provider for " +:+ key_label k +:+ " on class " +:+
      requester_label c +:+ " , injector: " +:+ uid
  | None =>
      "No provider for " +:+ key_label k +:+ ", injector: " +:+ uid
  end.

(** [get(provider, Class?)]; an [Error] is thrown with its message. *)
Fixpoint get (fuel : nat) (this : nat) (provider : Key)
    (c : option IProvider) (h : Heap) : option (Outcome string Stored) :=
  match fuel with
  | 0 => None
  | S n =>
      o ← injectors h !! this;
      match _providers o !! provider, parent o with
      | None, Some p => get n p provider c h
      | Some v, _ => Some (Returned v)
      | None, None =>
          Some (Thrown (no_provider_message provider c (_uid o)))
      end
  end.

End Lookup.

(** *** Building an object graph: [createAndResolve] *)

(** Computations on the store that may throw an [Error] (kept as its
    message). *)
Definition M (A : Type) : Type := Heap -> option (Outcome string A * Heap).

Definition mret {A} (a : A) : M A := fun h => Some (Returned a, h).

Definition mbind {A B} (m : M A) (f : A -> M B) : M B :=
  fun h =>
    match m h with
    | None => None
    | Some (Thrown e, h') => Some (Thrown e, h')
    | Some (Returned a, h') => f a h'
    end.

Notation "'let*' x ':=' m 'in' k" := (mbind m (fun x => k))
  (at level 10, x name, m at level 100, k at level 200, only parsing).

(** A store update that never throws. *)
Definition mlift (f : Heap -> option Heap) : M unit :=
  fun h => match f h with Some h' => Some (Returned tt, h') | None => None end.

(** A lookup, which leaves the store as it is. *)
Definition mread {A} (f : Heap -> option (Outcome string A)) : M A :=
  fun h => match f h with Some r => Some (r, h) | None => None end.

(** [l.forEach(cb)] and [l.map(cb)] on an array that [cb] cannot reach. *)
Fixpoint mforEach {A} (cb : A -> M unit) (l : list A) : M unit :=
  match l with
  | [] => mret tt
  | x :: t => let* _ := cb x in mforEach cb t
  end.

Fixpoint mmap {A B} (cb : A -> M B) (l : list A) : M (list B) :=
  match l with
  | [] => mret []
  | x :: t => let* y := cb x in let* ys := mmap cb t in mret (y :: ys)
  end.

Definition add_event (e : Event) (h : Heap) : Heap :=
  {| injectors := injectors h;
     arrays := arrays h;
     instances := instances h;
     events := events h ++ [e] |}.

Definition set_instance (id : nat) (i : Instance) (h : Heap) : Heap :=
  {| injectors := injectors h;
     arrays := arrays h;
     instances := <[id := i]> (instances h);
     events := events h |}.

(** [Reflect.construct(useClass, args)]: a [TypeError] when [useClass] is
    not there, a new object otherwise.  The constructor body is code of the
    application: the model records that it ran and with what arguments. *)
Definition Reflect_construct (c : option Class) (args : list Stored) : M nat :=
  fun h =>
    match c with
    | None => Some (Thrown "TypeError: undefined is not a constructor", h)
    | Some c =>
        let id := fresh (dom (instances h)) in
        Some (Returned id,
              add_event (EvConstruct id c args)
                (set_instance id
                   {| inst_class := c; inst_args := args; inst_props := [] |}
                   h))
    end.

(** The properties of an instance after
    [Reflect.defineProperty(instance, name, {value, writable})].  A property
    defined this way is not configurable: defining it again changes it only
    while it is writable. *)
Fixpoint define_prop (name : string) (v : Stored) (writable : bool)
    (props : list (string * (Stored * bool)))
    : list (string * (Stored * bool)) :=
  match props with
  | [] => [(name, (v, writable))]
  | (n, (v0, w0)) :: t =>
      if String.eqb n name
      then (if w0 then (n, (v, writable)) :: t else props)
      else (n, (v0, w0)) :: define_prop name v writable t
  end.

Definition Reflect_defineProperty (id : nat) (name : string) (v : Stored)
    (writable : bool) : M unit :=
  fun h =>
    i ← instances h !! id;
    Some (Returned tt,
          add_event (EvDefineProperty id name v writable)
            (set_instance id
               {| inst_class := inst_class i; inst_args := inst_args i;
                  inst_props := define_prop name v writable (inst_props i) |}
               h)).

(** [instance.afterConstruct]: an own property defined on the instance
    hides the member that comes with the class. *)
Fixpoint own_prop (name : string) (props : list (string * (Stored * bool)))
    : option Stored :=
  match props with
  | [] => None
  | (n, (v, _)) :: t => if String.eqb n name then Some v else own_prop name t
  end.

Definition instance_afterConstruct (i : Instance) : Stored :=
  match own_prop "afterConstruct" (inst_props i) with
  | Some v => v
  | None => SValue (member_afterConstruct (inst_class i))
  end.

(** The test that guards the call of the hook:
    [useClass.prototype.hasOwnProperty("afterConstruct") &&
     isFunction(instance.afterConstruct)]. *)
Definition hook_guard (c : Class) (i : Instance) : bool :=
  prototype_hasOwn_afterConstruct c &&
  stored_isFunction (instance_afterConstruct i).

(** [instance.afterConstruct()]: code of the application again. *)
Definition call_afterConstruct (id : nat) : M unit :=
  fun h => Some (Returned tt, add_event (EvAfterConstruct id []) h).

Section Resolve.

(** [toString] of [core] and the four queries of [Metadata]. *)
Variable toString : string -> string.
Variable getConstructorProviders : Key -> list IProvider.
Variable mergeProviders : list IProvider -> list IProvider -> list IProvider.
Variable getConstructorInjectKeys : Key -> list Key.
Variable getConstructorPrototypeKeys : Class -> option (list IInjectKey).

(** The instance method [createAndResolve(provider, providers)]. *)
Fixpoint createAndResolve (fuel : nat) (this : nat) (provider : IProvider)
    (providers : list IProvider) : M Stored :=
  match fuel with
  | 0 => fun _ => None
  | S n =>
      let providers :=
        mergeProviders (getConstructorProviders (provide provider)) providers in
      let* _ :=
        mforEach
          (fun item =>
             let* _ := createAndResolve n this item
                         (getConstructorProviders (provide item)) in
             mret tt)
          providers in
      if isPresent (useValue provider) then
        let* _ :=
          mlift (set this (provide provider) (SValue (useValue provider))) in
        mread (get toString n this (provide provider) None)
      else
        let keys := getConstructorInjectKeys (provide provider) in
        let* args :=
          mmap (fun arg => mread (get toString n this arg (Some provider)))
               keys in
        let* instance := Reflect_construct (useClass provider) args in
        let* _ :=
          match useClass provider with
          | None => mret tt
          | Some c =>
              match getConstructorPrototypeKeys c with
              | Some protoKeys =>
                  mforEach
                    (fun item =>
                       let* v := mread (get toString n this (value item) None) in
                       Reflect_defineProperty instance (key item) v
                         (isMutable item))
                    protoKeys
              | None => mret tt
              end
          end in
        let* _ := mlift (set this (provide provider) (SInstance instance)) in
        let* _ :=
          fun h =>
            match useClass provider, instances h !! instance with
            | Some c, Some i =>
                if hook_guard c i then call_afterConstruct instance h
                else mret tt h
            | _, _ => None
            end in
        let* _ := mlift (set this Injector_class (SInjector this)) in
        mret (SInstance instance)
  end.

(** The static entry points.  [uid] is what [uuid()] returns for the new
    container; [verifyProvider] and [verifyProviders] are those of
    [Metadata]. *)
Variable verifyProvider : Class -> IProvider.
Variable verifyProviders : list (IProvider + Class) -> list IProvider.

Definition createAndResolveChild (fuel : nat) (uid : string) (parent : nat)
    (c : Class) (providers : list (IProvider + Class)) : M nat :=
  fun h =>
    let '(child, h1) := new_Injector uid (Some parent) h in
    (let* _ := createAndResolve fuel child (verifyProvider c)
                 (verifyProviders providers) in
     let* _ := mlift (setChild parent child) in
     mret child) h1.

Definition static_createAndResolve (fuel : nat) (uid : string)
    (c : Class) (providers : list (IProvider + Class)) : M nat :=
  fun h =>
    let '(injector, h1) := new_Injector uid None h in
    (let* _ := createAndResolve fuel injector (verifyProvider c)
                 (verifyProviders providers) in
     mret injector) h1.

End Resolve.




(** *** What the properties below speak about *)

(** A container that [destroy] has run over reports this state. *)
Definition destroyed (a : nat) (h : Heap) : bool :=
  match injectors h !! a with
  | Some o =>
      bool_decide (_providers o = ∅) &&
      bool_decide (parent o = None) &&
      bool_decide (arrays h !! _children o = Some [])
  | None => false
  end.

(** The containers [c] on the way from [a] up to the top of the tree: [a]
    itself, its parent, and so on. *)
Inductive ancestor (h : Heap) : nat -> nat -> Prop :=
| ancestor_self a : ancestor h a a
| ancestor_parent a o p c :
    injectors h !! a = Some o -> parent o = Some p ->
    ancestor h p c -> ancestor h a c.

(** The shape every store built through [new Injector(parent)] and
    [createAndResolveChild] has: containers are numbered in the order of
    their creation below [N], a parent is older than its children, and both
    the parent link and the child array point at containers of the store. *)
Definition node_ok (N : nat) (h : Heap) (a : nat) (o : InjectorObj) : Prop :=
  a < N ∧
  match parent o with
  | Some p => p < a ∧ is_Some (injectors h !! p)
  | None => True
  end ∧
  match arrays h !! _children o with
  | Some l => Forall (fun c => a < c ∧ is_Some (injectors h !! c)) l
  | None => False
  end.

#[export] Instance node_ok_dec N h a o : Decision (node_ok N h a o).
Proof.
  unfold node_ok.
  destruct (parent o), (arrays h !! _children o); apply _.
Defined.

Definition tree_shaped (N : nat) (h : Heap) : Prop :=
  map_Forall (node_ok N h) (injectors h).

#[export] Instance tree_shaped_dec N h : Decision (tree_shaped N h).
Proof. unfold tree_shaped. apply _. Defined.

(** Nothing below [c] has changed between [h] and [h']. *)
Definition keeps_below (c : nat) (h h' : Heap) : Prop :=
  ∀ b, b < c -> injectors h' !! b = injectors h !! b.

(** The containers of [h] are in [h'] with the identifiers they had. *)
Definition same_uids (h h' : Heap) : Prop :=
  ∀ b ob, injectors h !! b = Some ob ->
          ∃ ob', injectors h' !! b = Some ob' ∧ _uid ob' = _uid ob.


(** From [h] to [h'] no container was made or lost, and none has changed
    its parent or its child array; the arrays are as they were.  Only
    bindings may differ. *)
Definition only_bindings (h h' : Heap) : Prop :=
  arrays h' = arrays h ∧
  ∀ a, match injectors h !! a, injectors h' !! a with
       | Some o, Some o' =>
           _children o' = _children o ∧ parent o' = parent o
       | None, None => True
       | _, _ => False
       end.

(** Every finished run of [m] takes the store to one related by [R]. *)
Definition respects {A} (R : Heap -> Heap -> Prop) (m : M A) : Prop :=
  ∀ h r h', m h = Some (r, h') -> R h h'.

(** *** What the further properties speak about *)

(** [l] without the first [x] in it. *)
Fixpoint remove_first (x : nat) (l : list nat) : list nat :=
  match l with
  | [] => []
  | y :: t => if decide (y = x) then t else y :: remove_first x t
  end.

(** Going up from [a], the first container that binds [k] is [b]. *)
Inductive nearest_binding (h : Heap) (k : Key) : nat -> nat -> Prop :=
| nearest_here a o :
    injectors h !! a = Some o -> is_Some (_providers o !! k) ->
    nearest_binding h k a a
| nearest_above a o p b :
    injectors h !! a = Some o -> _providers o !! k = None ->
    parent o = Some p -> nearest_binding h k p b ->
    nearest_binding h k a b.



End Injector.

(** ** The request orchestrator *)

Module Request.

(** Modelled from the spec: the method enum [Methods] of the router, whose
    declaration is not part of the sources at hand; the orchestrator singles
    out POST, PATCH and PUT. *)
Inductive Methods : Type :=
| GET | HEAD | DELETE | TRACE | OPTIONS | CONNECT | POST | PUT | PATCH.

#[export] Instance Methods_eq_dec : EqDecision Methods.
Proof. solve_decision. Defined.

(** [ResolvedRoute], as far as the orchestrator reads it. *)
Record ResolvedRoute : Type := {
  route : string;
  method : Methods
}.

Inductive Level : Type := TRACE_ | INFO | ERROR.

(** What the orchestrator does to its collaborators, in order: the logger,
    the response, and the listeners of its event emitter. *)
Inductive Effect : Type :=
| Log (level : Level) (message : Value) (context : Value)
| WriteHead (statusCode : Value) (headers : list (string * string))
| Write (chunk : Value)
| End_
| Emit (event : string)
| Notify (listener : nat)
| RemoveAllListeners.

(** The closures that [process] registers as listeners. *)
Inductive Callback : Type :=
| CbDestroy                       (* () => this.destroy() *)
| CbPush                          (* item => this.data.push(item) *)
| CbResolve (r : ResolvedRoute).  (* resolve.bind({}, resolvedRoute) *)

Record Listener : Type := {
  event : string;
  once : bool;
  callback : Callback
}.

(** The promise that [process] returns. *)
Inductive Promise : Type :=
| NotStarted
| AwaitingRouter
| AwaitingBody
| Settled (o : Outcome Value Value).

(** The orchestrator with the handles injected into it.  [request_on] and
    [response_on] are the listeners on the request and the response,
    [channel] those that others have put on the event emitter, [effects] what
    has been done so far. *)
Record Request : Type := {
  id : string;
  request_method : string;
  request_url : string;
  url_pathname : string;
  isCustomError : bool;
  isForwarded : bool;
  isForwarder : bool;
  data : list Value;
  statusCode : Value;
  request_on : list Listener;
  response_on : list Listener;
  channel : list (string * nat);
  effects : list Effect;
  promise : Promise
}.

Definition with_effect (e : Effect) (st : Request) : Request :=
  {| id := id st; request_method := request_method st;
     request_url := request_url st; url_pathname := url_pathname st;
     isCustomError := isCustomError st; isForwarded := isForwarded st;
     isForwarder := isForwarder st; data := data st;
     statusCode := statusCode st; request_on := request_on st;
     response_on := response_on st; channel := channel st;
     effects := effects st ++ [e]; promise := promise st |}.

Definition with_statusCode (c : Value) (st : Request) : Request :=
  {| id := id st; request_method := request_method st;
     request_url := request_url st; url_pathname := url_pathname st;
     isCustomError := isCustomError st; isForwarded := isForwarded st;
     isForwarder := isForwarder st; data := data st;
     statusCode := c; request_on := request_on st;
     response_on := response_on st; channel := channel st;
     effects := effects st; promise := promise st |}.

Definition with_data (d : list Value) (st : Request) : Request :=
  {| id := id st; request_method := request_method st;
     request_url := request_url st; url_pathname := url_pathname st;
     isCustomError := isCustomError st; isForwarded := isForwarded st;
     isForwarder := isForwarder st; data := d;
     statusCode := statusCode st; request_on := request_on st;
     response_on := response_on st; channel := channel st;
     effects := effects st; promise := promise st |}.

Definition with_request_on (l : list Listener) (st : Request) : Request :=
  {| id := id st; request_method := request_method st;
     request_url := request_url st; url_pathname := url_pathname st;
     isCustomError := isCustomError st; isForwarded := isForwarded st;
     isForwarder := isForwarder st; data := data st;
     statusCode := statusCode st; request_on := l;
     response_on := response_on st; channel := channel st;
     effects := effects st; promise := promise st |}.

Definition with_response_on (l : list Listener) (st : Request) : Request :=
  {| id := id st; request_method := request_method st;
     request_url := request_url st; url_pathname := url_pathname st;
     isCustomError := isCustomError st; isForwarded := isForwarded st;
     isForwarder := isForwarder st; data := data st;
     statusCode := statusCode st; request_on := request_on st;
     response_on := l; channel := channel st;
     effects := effects st; promise := promise st |}.

Definition with_channel (l : list (string * nat)) (st : Request) : Request :=
  {| id := id st; request_method := request_method st;
     request_url := request_url st; url_pathname := url_pathname st;
     isCustomError := isCustomError st; isForwarded := isForwarded st;
     isForwarder := isForwarder st; data := data st;
     statusCode := statusCode st; request_on := request_on st;
     response_on := response_on st; channel := l;
     effects := effects st; promise := promise st |}.

Definition with_promise (p : Promise) (st : Request) : Request :=
  {| id := id st; request_method := request_method st;
     request_url := request_url st; url_pathname := url_pathname st;
     isCustomError := isCustomError st; isForwarded := isForwarded st;
     isForwarder := isForwarder st; data := data st;
     statusCode := statusCode st; request_on := request_on st;
     response_on := response_on st; channel := channel st;
     effects := effects st; promise := p |}.

(** *** Reading properties and calling methods of a value *)

Fixpoint field (name : string) (fields : list (string * Value))
    : option Value :=
  match fields with
  | [] => None
  | (n, v) :: t => if String.eqb n name then Some v else field name t
  end.

(** The [TypeError] the engine throws. *)
Definition TypeError (message : string) : Value :=
  VRecord [("name", VStr "TypeError");
           ("message", VStr message);
           ("stack", VStr ("TypeError: " +:+ message))].

(** [v.name] for a data property: reading from [undefined] or [null] throws,
    a property that is not there reads as [undefined]. *)
Definition get_prop (v : Value) (name : string) : Outcome Value Value :=
  match v with
  | VUndefined | VNull =>
      Thrown (TypeError ("Cannot read property '" +:+ name +:+ "'"))
  | VRecord fields =>
      Returned (default VUndefined (field name fields))
  | VHttpError code message data stack =>
      Returned
        (if String.eqb name "message" then message
         else if String.eqb name "stack" then stack
         else if String.eqb name "code" then VNum code
         else if String.eqb name "data" then data
         else VUndefined)
  | _ => Returned VUndefined
  end.

(** *** Handlers: state and exceptions *)

(** A handler of the promise chain: it changes the orchestrator and returns
    or throws. *)
Definition P (A : Type) : Type := Request -> Outcome Value A * Request.

Definition pret {A} (a : A) : P A := fun st => (Returned a, st).

Definition pthrow {A} (e : Value) : P A := fun st => (Thrown e, st).

Definition plift {A} (o : Outcome Value A) : P A := fun st => (o, st).

(** [p.then(f)] and sequencing inside a handler. *)
Definition pbind {A B} (m : P A) (f : A -> P B) : P B :=
  fun st =>
    match m st with
    | (Returned a, st') => f a st'
    | (Thrown e, st') => (Thrown e, st')
    end.

(** [p.catch(f)]. *)
Definition pcatch {A} (m : P A) (f : Value -> P A) : P A :=
  fun st =>
    match m st with
    | (Returned a, st') => (Returned a, st')
    | (Thrown e, st') => f e st'
    end.

Notation "'do' x '<-' m ';' k" := (pbind m (fun x => k))
  (at level 10, x name, m at level 100, k at level 200, only parsing).

Definition effect (e : Effect) : P unit :=
  fun st => (Returned tt, with_effect e st).

Definition read {A} (f : Request -> A) : P A := fun st => (Returned (f st), st).

Definition write_statusCode (c : Value) : P unit :=
  fun st => (Returned tt, with_statusCode c st).

Section Pipeline.

(** [clean] of [logger/inspect] on a string, the text of [toString()] on an
    [HttpError], the stack that [new HttpError] captures, how a [Methods]
    value prints when it is appended to a string, and the methods that
    values other than [HttpError] bring along. *)
Variable clean : string -> string.
Variable HttpError_toString : Value -> string.
Variable captured_stack : Value.
Variable Methods_text : Methods -> string.
Variable invoke : Value -> string -> Outcome Value Value.

(** Modelled from the spec: [new HttpError(code, message, data)] of [error],
    a structured error carrying an HTTP status code and a message;
    [getCode()] returns the code. *)
Definition new_HttpError (code : Z) (message data : Value) : Value :=
  VHttpError code message data captured_stack.

(** [error.stack = s]. *)
Definition assign_stack (error s : Value) : Value :=
  match error with
  | VHttpError code message data _ => VHttpError code message data s
  | VRecord fields => VRecord (("stack", s) :: fields)
  | _ => error
  end.

(** [v.name()]. *)
Definition method_call (v : Value) (name : string) : Outcome Value Value :=
  let not_a_function := Thrown (TypeError (name +:+ " is not a function")) in
  match v with
  | VUndefined | VNull =>
      Thrown (TypeError ("Cannot read property '" +:+ name +:+ "'"))
  | VHttpError code _ _ _ =>
      if String.eqb name "getCode" then Returned (VNum code)
      else if String.eqb name "toString"
           then Returned (VStr (HttpError_toString v))
           else not_a_function
  | VRecord fields =>
      match field name fields with
      | Some (VFunc _) => invoke v name
      | Some _ => not_a_function
      | None => if String.eqb name "toString" then invoke v name
                else not_a_function
      end
  | _ => if String.eqb name "toString" then invoke v name else not_a_function
  end.

(** [clean(text)]: [text.replace(...)], which only a string has. *)
Definition call_clean (text : Value) : Outcome Value Value :=
  match text with
  | VStr s => Returned (VStr (clean s))
  | VUndefined | VNull => Thrown (TypeError "Cannot read property 'replace'")
  | _ => Thrown (TypeError "replace is not a function")
  end.

(** [destroy()]: [emit("destroy")] reaches the listeners registered for it,
    [removeAllListeners()] drops every listener. *)
Definition destroy (st : Request) : Request :=
  let listening :=
    List.filter (fun l => String.eqb l.1 "destroy") (channel st) in
  let st1 := with_effect (Emit "destroy") st in
  let st2 := foldl (fun s l => with_effect (Notify l.2) s) st1 listening in
  with_channel [] (with_effect RemoveAllListeners st2).

(** [render(response)]. *)
Definition render (response : Value) : P Value :=
  do i <- read id;
  do _ <- effect (Log INFO (VStr "Request.render") (VRecord [("id", VStr i)]));
  if isString response || instanceof_Buffer response then
    do code <- read statusCode;
    do _ <- effect (WriteHead code [("Content-Type", "text/html")]);
    do _ <- effect (Write response);
    do _ <- effect End_;
    pret response
  else
    do _ <- effect (Log ERROR (VStr "Invalid response type")
                      (VRecord [("id", VStr i);
                                ("response", response);
                                ("type", VStr (typeof response))]));
    pthrow (new_HttpError 500 (VStr "ResponseType must be string or buffer")
              (VRecord [("response", response)])).

(** The context logged with an error. *)
Definition error_context (st : Request) (error : Value) : Value :=
  VRecord [("id", VStr (id st));
           ("method", VStr (request_method st));
           ("request", VRecord [("pathname", VStr (url_pathname st))]);
           ("url", VStr (request_url st));
           ("error", error)].

Definition mutating (m : Methods) : bool :=
  bool_decide (m ∈ [POST; PATCH; PUT]).

(** What the first [then] logs. *)
Definition route_logged (r : ResolvedRoute) (st : Request) : Effect :=
  Log INFO (VStr "Route.parseRequest")
    (VRecord [("id", VStr (id st));
              ("isCustomError", VBool (isCustomError st));
              ("isForwarded", VBool (isForwarded st));
              ("method", VStr (request_method st));
              ("path", VStr (url_pathname st));
              ("route", VRecord [("route", VStr (route r));
                                 ("method", VStr (Methods_text (method r)))])]).

(** The two listeners that the first [then] puts on the request:
    [item => this.data.push(item)] on [data] and
    [resolve.bind({}, resolvedRoute)] on [end]. *)
Definition body_listeners (r : ResolvedRoute) : list Listener :=
  [ {| event := "data"; once := false; callback := CbPush |};
    {| event := "end"; once := false; callback := CbResolve r |} ].

(** First [then]: log the route; for POST, PATCH and PUT on a request that
    is not forwarded, listen for the body and return a promise that the
    [end] of the request resolves with the route ([None] here). *)
Definition on_route (resolvedRoute : ResolvedRoute)
    : P (option ResolvedRoute) :=
  do st <- read (fun st => st);
  do _ <- effect (route_logged resolvedRoute st);
  if mutating (method resolvedRoute) && negb (isForwarded st) then
    fun st =>
      (Returned None,
       with_request_on (request_on st ++ body_listeners resolvedRoute) st)
  else pret (Some resolvedRoute).

(** Second [then]. *)
Definition render_route (resolvedRoute : ResolvedRoute) : P Value :=
  render (VStr (route resolvedRoute +:+ Methods_text (method resolvedRoute))).

(** The normalisation at the head of the first [catch]. *)
Definition force_HttpError (error : Value) : Outcome Value Value :=
  if negb (instanceof_HttpError error) then
    let _error := error in
    match get_prop _error "message" with
    | Thrown e => Thrown e
    | Returned message =>
        let error := new_HttpError 500 message (VRecord []) in
        match get_prop _error "stack" with
        | Thrown e => Thrown e
        | Returned stack => Returned (assign_stack error stack)
        end
    end
  else Returned error.

(** First [catch]. *)
Definition recover_first (error : Value) : P Value :=
  do error <- plift (force_HttpError error);
  do message <- plift (get_prop error "message");
  do st <- read (fun st => st);
  do _ <- effect (Log ERROR message (error_context st error));
  do code <- plift (method_call error "getCode");
  do _ <- write_statusCode code;
  do text <- plift (method_call error "toString");
  do cleaned <- plift (call_clean text);
  render cleaned.

(** Second [catch]. *)
Definition recover_second (error : Value) : P Value :=
  do code <- plift (method_call error "getCode");
  do _ <- write_statusCode code;
  do text <- plift (method_call error "toString");
  do cleaned <- plift (call_clean text);
  render cleaned.

(** Third [catch]: [logger.error] returns nothing. *)
Definition recover_last (error : Value) : P Value :=
  do message <- plift (get_prop error "message");
  do st <- read (fun st => st);
  do _ <- effect (Log ERROR message (error_context st error));
  pret VUndefined.

(** The chain from the second [then] on, entered with the settled
    outcome of what precedes it. *)
Definition chain (r : Outcome Value ResolvedRoute) : P Value :=
  pcatch
    (pcatch
       (pcatch (pbind (plift r) render_route) recover_first)
       recover_second)
    recover_last.

Definition settle (r : Outcome Value ResolvedRoute) (st : Request) : Request :=
  let '(o, st') := chain r st in with_promise (Settled o) st'.

(** The two listeners that [process] puts on the response, each with
    [once] and each [() => this.destroy()]. *)
Definition wiring : list Listener :=
  [ {| event := "finish"; once := true; callback := CbDestroy |};
    {| event := "close"; once := true; callback := CbDestroy |} ].

(** [process()] up to the call of the router, whose answer arrives later. *)
Definition process (st : Request) : Request :=
  let st1 :=
    if negb (isForwarded st) then
      with_response_on (response_on st ++ wiring) st
    else st in
  with_promise AwaitingRouter st1.

(** *** What the environment does next *)

Inductive Signal : Type :=
| RouterSettles (r : Outcome Value ResolvedRoute)
| RequestData (chunk : Value)
| RequestEnd
| ResponseFinish
| ResponseClose.

Definition router_settles (r : Outcome Value ResolvedRoute) (st : Request)
    : Request :=
  match promise st with
  | AwaitingRouter =>
      match r with
      | Thrown e => settle (Thrown e) st
      | Returned resolvedRoute =>
          match on_route resolvedRoute st with
          | (Returned None, st') => with_promise AwaitingBody st'
          | (Returned (Some r'), st') => settle (Returned r') st'
          | (Thrown e, st') => settle (Thrown e) st'
          end
      end
  | _ => st
  end.

Definition run_callback (cb : Callback) (arg : Value) (st : Request)
    : Request :=
  match cb with
  | CbDestroy => destroy st
  | CbPush => with_data (data st ++ [arg]) st
  | CbResolve r =>
      match promise st with
      | AwaitingBody => settle (Returned r) st
      | _ => st
      end
  end.

Definition listens (name : string) (l : Listener) : bool :=
  String.eqb (event l) name.

(** [emitter.emit(name, arg)]: the listeners for [name] run in the order
    they were added; those added with [once] are dropped. *)
Definition request_emit (name : string) (arg : Value) (st : Request)
    : Request :=
  let fired := List.filter (listens name) (request_on st) in
  let kept := List.filter (fun l => negb (listens name l && once l))
                (request_on st) in
  foldl (fun s l => run_callback (callback l) arg s)
    (with_request_on kept st) fired.

Definition response_emit (name : string) (arg : Value) (st : Request)
    : Request :=
  let fired := List.filter (listens name) (response_on st) in
  let kept := List.filter (fun l => negb (listens name l && once l))
                (response_on st) in
  foldl (fun s l => run_callback (callback l) arg s)
    (with_response_on kept st) fired.

Definition handle (s : Signal) (st : Request) : Request :=
  match s with
  | RouterSettles r => router_settles r st
  | RequestData chunk => request_emit "data" chunk st
  | RequestEnd => request_emit "end" VUndefined st
  | ResponseFinish => response_emit "finish" VUndefined st
  | ResponseClose => response_emit "close" VUndefined st
  end.

Definition run (signals : list Signal) (st : Request) : Request :=
  foldl (fun s sig => handle sig s) st signals.

End Pipeline.

(** *** Observations on the effects *)

Definition is_WriteHead (e : Effect) : bool :=
  match e with WriteHead _ _ => true | _ => false end.

Definition is_Emit_destroy (e : Effect) : bool :=
  match e with Emit name => String.eqb name "destroy" | _ => false end.

Definition is_Notify (n : nat) (e : Effect) : bool :=
  match e with Notify m => Nat.eqb m n | _ => false end.

Definition count (p : Effect -> bool) (l : list Effect) : nat :=
  length (List.filter p l).

(** The status codes of the responses written. *)
Definition statuses (l : list Effect) : list Value :=
  omap (fun e => match e with WriteHead c _ => Some c | _ => None end) l.

(** An orchestrator as the container hands it over. *)
Definition new_Request (uid method url pathname : string)
    (custom forwarded forwarder : bool) (buffer : list Value)
    (status : Value) (listeners : list (string * nat)) : Request :=
  {| id := uid; request_method := method; request_url := url;
     url_pathname := pathname; isCustomError := custom;
     isForwarded := forwarded; isForwarder := forwarder; data := buffer;
     statusCode := status; request_on := []; response_on := [];
     channel := listeners; effects := []; promise := NotStarted |}.

(** What [render] adds to the effects when it accepts the payload. *)
Definition rendered (st : Request) (payload : Value) : list Effect :=
  [ Log INFO (VStr "Request.render") (VRecord [("id", VStr (id st))]);
    WriteHead (statusCode st) [("Content-Type", "text/html")];
    Write payload;
    End_ ].

(** What [destroy] adds to the effects. *)
Definition torn_down (listeners : list (string * nat)) : list Effect :=
  Emit "destroy" ::
  map (fun l => Notify l.2)
    (List.filter (fun l => String.eqb l.1 "destroy") listeners) ++
  [RemoveAllListeners].

(** Effects, signals and listeners that have nothing to do with teardown. *)
Definition quiet_effect (e : Effect) : bool :=
  match e with
  | Emit _ | Notify _ | RemoveAllListeners => false
  | _ => true
  end.

Definition quiet_signal (s : Signal) : bool :=
  match s with
  | ResponseFinish | ResponseClose => false
  | _ => true
  end.

Definition harmless (l : Listener) : bool :=
  match callback l with
  | CbDestroy => false
  | _ => true
  end.

(** From [st] to [st'] the listeners, the buffer and the flags are the
    same, and what was done in between is quiet. *)
Definition steady (st st' : Request) : Prop :=
  response_on st' = response_on st ∧
  request_on st' = request_on st ∧
  channel st' = channel st ∧
  ∃ new, effects st' = effects st ++ new ∧ forallb quiet_effect new = true.

Definition calm {A} (m : P A) : Prop := ∀ st, steady st (m st).2.

(** The response still carries the two listeners of [process], the event
    emitter has the listeners [ch], no listener on the request tears down,
    and since the effects [e0] only quiet things have happened. *)
Definition wired (ch : list (string * nat)) (e0 : list Effect)
    (st : Request) : Prop :=
  response_on st = wiring ∧
  channel st = ch ∧
  forallb harmless (request_on st) = true ∧
  ∃ new, effects st = e0 ++ new ∧ forallb quiet_effect new = true.

(** *** What the further properties speak about *)

(** The response heads written so far. *)
Definition heads (st : Request) : nat := count is_WriteHead (effects st).

(** How often listener [n] is registered for [destroy] on the event
    emitter. *)
Definition registered (n : nat) (ch : list (string * nat)) : nat :=
  length (List.filter (fun l => String.eqb l.1 "destroy" && Nat.eqb l.2 n) ch).

(** A handler that writes no response head. *)
Definition silent {A} (m : P A) : Prop := ∀ st, heads (m st).2 = heads st.

(** A handler that writes one response head when it returns and none when
    it throws. *)
Definition answers_once {A} (m : P A) : Prop :=
  ∀ st,
    match m st with
    | (Returned _, st') => heads st' = heads st + 1
    | (Thrown _, st') => heads st' = heads st
    end.

(** No response head beyond [base] while the promise is pending, at most
    one more once it is settled. *)
Definition head_budget (base : nat) (st : Request) : Prop :=
  match promise st with
  | Settled _ => heads st ≤ base + 1
  | _ => heads st ≤ base
  end.

(** A handler that leaves the forwarding flag and the body buffer alone. *)
Definition leaves_body {A} (m : P A) : Prop :=
  ∀ st, isForwarded (m st).2 = isForwarded st ∧ data (m st).2 = data st.

End Request.

(** * A sample application

    Two classes and the metadata their decorators leave behind, used to run
    the programs on stores built through the public entry points. *)

Module Sample.

Import Injector.

(** [Alpha] declares [afterConstruct] itself; [Beta] inherits one, takes an
    [Alpha] as constructor argument and has the property [config] injected. *)
Definition Alpha : Class :=
  {| class_id := 1; class_name := "Alpha";
     prototype_hasOwn_afterConstruct := true;
     member_afterConstruct := VFunc "afterConstruct" |}.

Definition Beta : Class :=
  {| class_id := 2; class_name := "Beta";
     prototype_hasOwn_afterConstruct := false;
     member_afterConstruct := VFunc "afterConstruct" |}.

Definition toString (s : string) : string := s.

Definition verifyProvider (c : Class) : IProvider :=
  {| provide := class_key c; useClass := Some c; useValue := VUndefined |}.

Definition verifyProviders (l : list (IProvider + Class)) : list IProvider :=
  map (fun x => match x with inl p => p | inr c => verifyProvider c end) l.

Definition getConstructorProviders (k : Key) : list IProvider :=
  if decide (k = class_key Beta) then [verifyProvider Alpha] else [].

Definition mergeProviders (declared overrides : list IProvider)
    : list IProvider :=
  filter (fun d => bool_decide (provide d ∉ map provide overrides)) declared
  ++ overrides.

Definition getConstructorInjectKeys (k : Key) : list Key :=
  if decide (k = class_key Beta) then [class_key Alpha] else [].

Definition getConstructorPrototypeKeys (c : Class)
    : option (list IInjectKey) :=
  if decide (class_id c = 2)
  then Some [ {| key := "config"; value := KToken "config";
                 isMutable := false |} ]
  else None.

Definition config : IProvider :=
  {| provide := KToken "config"; useClass := None; useValue := VStr "cfg" |}.

Definition createAndResolve :=
  Injector.createAndResolve toString getConstructorProviders mergeProviders
    getConstructorInjectKeys getConstructorPrototypeKeys.

Definition createAndResolveChild :=
  Injector.createAndResolveChild toString getConstructorProviders
    mergeProviders getConstructorInjectKeys getConstructorPrototypeKeys
    verifyProvider verifyProviders.

(** [let parent = new Injector()]: container 0. *)
Definition root_only : Heap := (new_Injector "uid-root" None empty_heap).2.

Definition heap_of {A} (r : option (Outcome string A * Heap)) : Heap :=
  match r with
  | Some (_, h) => h
  | None => empty_heap
  end.

(** [Injector.createAndResolveChild(parent, Alpha, [])]: container 1. *)
Definition one_child : Heap :=
  heap_of (createAndResolveChild 3 "uid-first" 0 Alpha [] root_only).

(** The same once more: container 2, the second child of container 0. *)
Definition two_children : Heap :=
  heap_of (createAndResolveChild 3 "uid-second" 0 Alpha [] one_child).

(** [parent.set("config", "outer"); child.set("config", "inner")] on the
    store with one child. *)
Definition shadowing : Heap :=
  default empty_heap
    (h ← set 0 (KToken "config") (SValue (VStr "outer")) one_child;
     set 1 (KToken "config") (SValue (VStr "inner")) h).

(** [parent.createAndResolve(verifyProvider(Alpha), [])] on the store with
    one container, and the same for [Beta] with the provider of [config]. *)
Definition alpha_resolved : Heap :=
  heap_of (createAndResolve 2 0 (verifyProvider Alpha) [] root_only).

Definition beta_resolved : Heap :=
  heap_of (createAndResolve 4 0 (verifyProvider Beta) [config] root_only).



(** The collaborators of the orchestrator, and a PUT request as the
    container hands it over: empty buffer, status 200, one listener (number
    7) waiting for [destroy] on the event emitter. *)
Definition clean (s : string) : string := s.

Definition HttpError_toString (v : Value) : string :=
  match v with
  | VHttpError _ (VStr m) _ _ => "HttpError: " +:+ m
  | _ => "HttpError"
  end.

Definition captured_stack : Value := VStr "at new HttpError".

Definition Methods_text (m : Request.Methods) : string :=
  match m with
  | Request.GET => "0" | Request.HEAD => "1" | Request.DELETE => "2"
  | Request.TRACE => "3" | Request.OPTIONS => "4" | Request.CONNECT => "5"
  | Request.POST => "6" | Request.PUT => "7" | Request.PATCH => "8"
  end.

Definition invoke (v : Value) (name : string) : Outcome Value Value :=
  Returned (VStr "[object Object]").

Definition incoming : Request.Request :=
  Request.new_Request "req-1" "PUT" "/users" "/users" false false false []
    (VNum 200) [("destroy", 7)].

Definition users_route : Request.ResolvedRoute :=
  {| Request.route := "users"; Request.method := Request.PUT |}.

Definition handle :=
  Request.handle clean HttpError_toString captured_stack Methods_text invoke.

Definition run :=
  Request.run clean HttpError_toString captured_stack Methods_text invoke.

(** *** More sample stores and requests *)

(** [parent.set("config", "outer")] on the store with one child: the key is
    bound in the parent only. *)
Definition outer_only : Heap :=
  default empty_heap
    (set 0 (KToken "config") (SValue (VStr "outer")) one_child).


(** A class table in which no class declares providers of its own. *)
Definition no_providers (k : Key) : list IProvider := [].

Definition root : InjectorObj :=
  {| _uid := "uid-root"; _providers := ∅; _children := 0; parent := None |}.

(** The same request, forwarded by another orchestrator. *)
Definition forwarded : Request.Request :=
  Request.new_Request "req-2" "PUT" "/users" "/users" false true false []
    (VNum 200) [("destroy", 7)].

End Sample.

(** * Properties of the provider registry *)

Module InjectorSpec.

Import Injector.

Lemma keeps_below_refl c h : keeps_below c h h.
Proof. by intros b _. Qed.

Lemma keeps_below_trans c h1 h2 h3 :
  keeps_below c h1 h2 -> keeps_below c h2 h3 -> keeps_below c h1 h3.
Proof. intros H12 H23 b Hb. rewrite H23, H12; auto. Qed.

Lemma keeps_below_mono c d h h' :
  c ≤ d -> keeps_below d h h' -> keeps_below c h h'.
Proof. intros Hcd H b Hb. apply H. lia. Qed.

(** *** [splice] only removes *)

Lemma splice_subset start count (l : list nat) x :
  x ∈ JsArray.splice start count l -> x ∈ l.
Proof.
  unfold JsArray.splice. intros Hx.
  apply elem_of_app in Hx as [Hx | Hx].
  - eapply subseteq_take, Hx.
  - eapply subseteq_drop, Hx.
Qed.

(** *** The shape is kept by every store update of [destroy] *)

Lemma tree_shaped_set_array N h r l' :
  tree_shaped N h ->
  (∀ x, x ∈ l' -> ∃ l, arrays h !! r = Some l ∧ x ∈ l) ->
  tree_shaped N (set_array r l' h).
Proof.
  intros Hwf Hsub a o Ha. simpl in Ha.
  destruct (Hwf a o Ha) as (HN & Hp & Hc).
  split; [done|]. split; [done|]. simpl.
  destruct (decide (_children o = r)) as [Heq|Hne].
  - subst r. rewrite lookup_insert_eq. apply Forall_forall. intros x Hx.
    destruct (Hsub x Hx) as (l & Hl & Hxl). rewrite Hl in Hc.
    by eapply Forall_forall in Hc.
  - by rewrite lookup_insert_ne.
Qed.

Lemma tree_shaped_set_injector N h a o o' :
  tree_shaped N h ->
  injectors h !! a = Some o ->
  (parent o' = parent o ∨ parent o' = None) ->
  (_children o' = _children o ∨ arrays h !! _children o' = Some []) ->
  tree_shaped N (set_injector a o' h).
Proof.
  intros Hwf Ha Hp Hc b ob Hb. simpl in Hb.
  assert (Hdom : ∀ x, is_Some (injectors h !! x) ->
                      is_Some (<[a:=o']> (injectors h) !! x)).
  { intros x Hx. destruct (decide (a = x)) as [->|].
    - rewrite lookup_insert_eq. eauto.
    - by rewrite lookup_insert_ne. }
  assert (Hkeep : ∀ x ox, node_ok N h x ox ->
                          node_ok N (set_injector a o' h) x ox).
  { intros x ox (HN & Hpx & Hcx). split; [done|]. split.
    - destruct (parent ox); [|done]. destruct Hpx. split; [done|].
      by apply Hdom.
    - simpl. destruct (arrays h !! _children ox); [|done].
      eapply Forall_impl; [exact Hcx|]. intros c [? ?]. split; [done|].
      by apply Hdom. }
  destruct (decide (a = b)) as [<-|Hne].
  - rewrite lookup_insert_eq in Hb. injection Hb as <-.
    apply Hkeep. destruct (Hwf a o Ha) as (HN & Hpo & Hco).
    split; [done|]. split.
    + destruct Hp as [-> | ->]; done.
    + destruct Hc as [-> | ->]; [done|]. constructor.
  - rewrite lookup_insert_ne in Hb by done. apply Hkeep. by apply Hwf.
Qed.

(** *** [destroy] finishes on a tree and leaves older containers alone *)

Lemma forEach_from_total N a r (cb : nat -> Heap -> option Heap) :
  (∀ x h, tree_shaped N h -> a < x -> is_Some (injectors h !! x) ->
     ∃ h', cb x h = Some h' ∧ tree_shaped N h' ∧ keeps_below x h h') ->
  ∀ todo k h,
    tree_shaped N h ->
    (∃ o, injectors h !! a = Some o ∧ _children o = r) ->
    ∃ h', forEach_from cb r todo k h = Some h' ∧ tree_shaped N h' ∧
          keeps_below (S a) h h'.
Proof.
  intros Hcb. induction todo as [|todo IH]; intros k h Hwf (o & Ha & Hr).
  - exists h. simpl. split; [done|]. split; [done|]. apply keeps_below_refl.
  - simpl. destruct (Hwf a o Ha) as (HN & Hp & Hc). rewrite Hr in Hc.
    destruct (arrays h !! r) as [l|] eqn:Hl; [|done]. simpl.
    destruct (l !! k) as [x|] eqn:Hx.
    + assert (Hxl : x ∈ l) by (eapply list_elem_of_lookup_2; eauto).
      eapply Forall_forall in Hc as [Hax Hxs]; [|exact Hxl].
      destruct (Hcb x h Hwf Hax Hxs) as (h1 & -> & Hwf1 & Hk1). simpl.
      destruct (IH (S k) h1 Hwf1) as (h2 & Hrun & Hwf2 & Hk2).
      { exists o. split; [|done]. rewrite Hk1; [done|lia]. }
      exists h2. split; [done|]. split; [done|].
      eapply keeps_below_trans; [|exact Hk2].
      eapply keeps_below_mono; [|exact Hk1]. lia.
    + apply IH; [done|]. eauto.
Qed.

Lemma destroy_total N :
  ∀ n a h,
    tree_shaped N h -> is_Some (injectors h !! a) -> N ≤ a + n ->
    ∃ h', destroy n a h = Some h' ∧ tree_shaped N h' ∧ keeps_below a h h'.
Proof.
  induction n as [|n IH]; intros a h Hwf [o Ha] Hfuel.
  - destruct (Hwf a o Ha) as (HN & _). lia.
  - simpl. rewrite Ha. simpl.
    destruct (Hwf a o Ha) as (HN & Hp & Hc).
    (* the parent forgets this container *)
    assert (∃ h1, match parent o with
                  | Some p => removeChild p a h
                  | None => Some h
                  end = Some h1 ∧ tree_shaped N h1 ∧
                  injectors h1 = injectors h) as (h1 & -> & Hwf1 & Hinj1).
    { destruct (parent o) as [p|]; [|by exists h].
      destruct Hp as [Hpa [op Hop]]. unfold removeChild. rewrite Hop. simpl.
      destruct (Hwf p op Hop) as (_ & _ & Hcp).
      destruct (arrays h !! _children op) as [lp|] eqn:Hlp; [|done]. simpl.
      eexists. split; [done|]. split; [|done].
      apply tree_shaped_set_array; [done|]. intros x Hx.
      exists lp. split; [done|]. by eapply splice_subset. }
    simpl. rewrite Hinj1, Ha. simpl.
    (* the children are destroyed *)
    assert (Ha1 : injectors h1 !! a = Some o) by (by rewrite Hinj1).
    destruct (Hwf1 a o Ha1) as (_ & _ & Hc1).
    unfold forEach.
    destruct (arrays h1 !! _children o) as [l|] eqn:Hl; [|done]. simpl.
    destruct (forEach_from_total N a (_children o) (destroy n)) with
      (todo := length l) (k := 0) (h := h1) as (h2 & -> & Hwf2 & Hk2);
      [|done|by exists o|].
    { intros x hx Hwfx Hax Hx. apply IH; [done|done|lia]. }
    simpl.
    assert (Ha2 : injectors h2 !! a = Some o) by (rewrite Hk2; [done|lia]).
    rewrite Ha2. simpl. rewrite !lookup_insert_eq. simpl.
    rewrite !lookup_insert_eq. simpl.
    eexists. split; [done|]. split.
    + set (r := fresh (dom (arrays h2))).
      assert (Hwf3 : tree_shaped N (set_array r [] h2)).
      { apply tree_shaped_set_array; [done|]. intros x Hx.
        by apply elem_of_nil in Hx. }
      assert (Hr : arrays (set_array r [] h2) !! r = Some [])
        by (simpl; apply lookup_insert_eq).
      pose (o3 := {| _uid := _uid o; _providers := _providers o;
                     _children := r; parent := parent o |}).
      pose (o4 := {| _uid := _uid o; _providers := _providers o;
                     _children := r; parent := None |}).
      assert (Hwf4 : tree_shaped N (set_injector a o3 (set_array r [] h2))).
      { apply tree_shaped_set_injector with (o := o);
          [exact Hwf3|exact Ha2|by left|by right]. }
      assert (Hwf5 : tree_shaped N
                (set_injector a o4 (set_injector a o3 (set_array r [] h2)))).
      { apply tree_shaped_set_injector with (o := o3);
          [exact Hwf4|apply lookup_insert_eq|by right|by left]. }
      apply tree_shaped_set_injector with (o := o4);
        [exact Hwf5|apply lookup_insert_eq|by left|by left].
    + intros b Hb. simpl. rewrite !lookup_insert_ne by lia.
      rewrite Hk2 by lia. by rewrite Hinj1.
Qed.

(** *** What [destroy] leaves of the container itself *)

Lemma destroy_clears fuel a h h' :
  destroy fuel a h = Some h' ->
  ∃ o, injectors h' !! a = Some o ∧ _providers o = ∅ ∧ parent o = None.
Proof.
  destruct fuel as [|n]; [done|]. simpl. intros H.
  destruct (injectors h !! a) as [o|]; [|done]. simpl in H.
  destruct (match parent o with
            | Some p => removeChild p a h
            | None => Some h
            end) as [h1|]; [|done]. simpl in H.
  destruct (injectors h1 !! a) as [o1|]; [|done]. simpl in H.
  destruct (forEach (destroy n) (_children o1) h1) as [h2|]; [|done].
  simpl in H.
  destruct (injectors h2 !! a) as [o2|]; [|done]. simpl in H.
  rewrite !lookup_insert_eq in H. simpl in H.
  rewrite !lookup_insert_eq in H. simpl in H.
  injection H as <-. simpl. rewrite lookup_insert_eq. eauto.
Qed.

(** *** [destroy] never changes an identifier *)

Lemma same_uids_refl h : same_uids h h.
Proof. intros b ob Hb. eauto. Qed.

Lemma same_uids_trans h1 h2 h3 :
  same_uids h1 h2 -> same_uids h2 h3 -> same_uids h1 h3.
Proof.
  intros H12 H23 b ob Hb.
  destruct (H12 b ob Hb) as (ob2 & Hb2 & Hu2).
  destruct (H23 b ob2 Hb2) as (ob3 & Hb3 & Hu3).
  exists ob3. split; [done|]. congruence.
Qed.

Lemma same_uids_set_injector a o o' h :
  injectors h !! a = Some o -> _uid o' = _uid o ->
  same_uids h (set_injector a o' h).
Proof.
  intros Ha Hu b ob Hb. simpl. destruct (decide (a = b)) as [<-|Hne].
  - rewrite lookup_insert_eq. exists o'. split; [done|]. congruence.
  - rewrite lookup_insert_ne by done. eauto.
Qed.

Lemma forEach_from_same_uids (cb : nat -> Heap -> option Heap) r :
  (∀ x h h', cb x h = Some h' -> same_uids h h') ->
  ∀ todo k h h', forEach_from cb r todo k h = Some h' -> same_uids h h'.
Proof.
  intros Hcb. induction todo as [|todo IH]; intros k h h' H; simpl in H.
  - injection H as <-. apply same_uids_refl.
  - destruct (arrays h !! r) as [l|]; [|done]. simpl in H.
    destruct (l !! k) as [x|]; [|by eapply IH].
    destruct (cb x h) as [h1|] eqn:Hx; [|done]. simpl in H.
    eapply same_uids_trans; [by eapply Hcb|by eapply IH].
Qed.

Lemma destroy_same_uids :
  ∀ fuel a h h', destroy fuel a h = Some h' -> same_uids h h'.
Proof.
  induction fuel as [|n IH]; intros a h h' H; [done|]. simpl in H.
  destruct (injectors h !! a) as [o|]; [|done]. simpl in H.
  destruct (match parent o with
            | Some p => removeChild p a h
            | None => Some h
            end) as [h1|] eqn:H1; [|done]. simpl in H.
  assert (Hs1 : same_uids h h1).
  { destruct (parent o) as [p|]; [|injection H1 as <-; apply same_uids_refl].
    unfold removeChild in H1.
    destruct (injectors h !! p) as [op|]; [|done]. simpl in H1.
    destruct (arrays h !! _children op); [|done]. injection H1 as <-.
    intros b ob Hb. simpl. eauto. }
  destruct (injectors h1 !! a) as [o1|]; [|done]. simpl in H.
  destruct (forEach (destroy n) (_children o1) h1) as [h2|] eqn:H2; [|done].
  simpl in H.
  assert (Hs2 : same_uids h1 h2).
  { unfold forEach in H2. destruct (arrays h1 !! _children o1); [|done].
    simpl in H2. eapply forEach_from_same_uids; [|exact H2]. apply IH. }
  destruct (injectors h2 !! a) as [o2|] eqn:Ha2; [|done]. simpl in H.
  rewrite !lookup_insert_eq in H. simpl in H.
  rewrite !lookup_insert_eq in H. simpl in H.
  injection H as <-.
  eapply same_uids_trans; [exact Hs1|].
  eapply same_uids_trans; [exact Hs2|].
  intros b ob Hb. simpl. destruct (decide (a = b)) as [<-|Hne].
  - rewrite lookup_insert_eq. eexists. split; [done|]. simpl. congruence.
  - rewrite !lookup_insert_ne by done. eauto.
Qed.

(** *** Text search *)

Lemma prefix_append s t : String.prefix s (s +:+ t) = true.
Proof.
  induction s as [|c s IH]; simpl; [by destruct t|].
  destruct (Ascii.ascii_dec c c); [done|congruence].
Qed.

Lemma contains_here s t : contains s (s +:+ t) = true.
Proof.
  destruct s as [|c s].
  - by destruct t.
  - simpl. destruct (Ascii.ascii_dec c c); [|congruence].
    by rewrite prefix_append.
Qed.

Lemma contains_skip s a t : contains s t = true -> contains s (a +:+ t) = true.
Proof.
  intros H. induction a as [|c a IH]; simpl; [done|].
  rewrite IH. apply orb_true_r.
Qed.

Lemma contains_end s a : contains s (a +:+ s) = true.
Proof.
  apply contains_skip.
  assert (Hs : s +:+ EmptyString = s).
  { induction s as [|c s IH]; [done|].
    change (String c (s +:+ EmptyString) = String c s). congruence. }
  pose proof (contains_here s EmptyString) as H. by rewrite Hs in H.
Qed.

(** *** Recursive teardown *)

(** C1.  A parent with two live children, both made by
    [Injector.createAndResolveChild(parent, Alpha, [])]: [parent.destroy()]
    finishes, the parent and the first child report the destroyed state, but
    the second child does not; it still resolves [Alpha] to its instance and
    still points at the parent.  The first child removes itself from the
    array the parent is iterating over, so the loop never reaches the
    second. *)
Theorem destroy_skips_second_child :
  let after := destroy 3 0 Sample.two_children in
  arrays Sample.two_children !! 0 = Some [1; 2] ∧
  (destroyed 0 <$> after) = Some true ∧
  (destroyed 1 <$> after) = Some true ∧
  (destroyed 2 <$> after) = Some false ∧
  (after ≫= fun h' => parent <$> injectors h' !! 2) = Some (Some 0) ∧
  (after ≫= get Sample.toString 2 2 (class_key Sample.Alpha) None)
    = Some (Returned (SInstance 1)).
Proof. vm_compute. repeat split. Qed.

(** On a tree of containers [destroy()] finishes, given as many nested
    calls as there are numbers from the container up to [N]; it leaves a tree
    and does not touch the containers created before the destroyed one. *)
Theorem destroy_finishes_on_tree N a h :
  tree_shaped N h ->
  is_Some (injectors h !! a) ->
  ∃ h', destroy (N - a) a h = Some h' ∧ tree_shaped N h' ∧ keeps_below a h h'.
Proof. intros Hwf Ha. apply destroy_total; [done|done|lia]. Qed.

Lemma destroy_finishes_on_tree_witness :
  ∃ h', destroy (3 - 0) 0 Sample.two_children = Some h' ∧
        tree_shaped 3 h' ∧ keeps_below 0 Sample.two_children h'.
Proof.
  apply (destroy_finishes_on_tree 3 0 Sample.two_children).
  - apply (bool_decide_unpack (tree_shaped 3 Sample.two_children)).
    vm_compute. exact I.
  - vm_compute. eauto.
Defined.

(** *** Lookup after teardown *)

(** C10.  Once [destroy()] has completed on a container, [get] of any key
    on it throws the "no provider" error that carries the container's own
    identifier: nothing is left in its map and it has no parent to ask. *)
Theorem get_after_destroy_throws toString fuel a h h' o :
  injectors h !! a = Some o ->
  destroy fuel a h = Some h' ->
  ∀ n k c,
    get toString (S n) a k c h'
      = Some (Thrown (no_provider_message toString k c (_uid o))).
Proof.
  intros Ha Hd n k c.
  destruct (destroy_clears _ _ _ _ Hd) as (o' & Ho' & Hempty & Hparent).
  destruct (destroy_same_uids _ _ _ _ Hd a o Ha) as (o'' & Ho'' & Huid).
  assert (o'' = o') by congruence. subst o''.
  simpl. rewrite Ho'. simpl. rewrite Hempty, lookup_empty, Hparent.
  by rewrite Huid.
Qed.

Lemma get_after_destroy_throws_witness :
  get Sample.toString 1 1 (KToken "config") None
    (default empty_heap (destroy 2 1 Sample.shadowing))
  = Some (Thrown "No provider for config, injector: uid-first").
Proof.
  apply (get_after_destroy_throws Sample.toString 2 1 Sample.shadowing
           (default empty_heap (destroy 2 1 Sample.shadowing))
           {| _uid := "uid-first";
              _providers :=
                <[KToken "config" := SValue (VStr "inner")]>
                  (<[Injector_class := SInjector 1]>
                     (<[class_key Sample.Alpha := SInstance 0]> ∅));
              _children := 1; parent := Some 0 |}).
  - vm_compute. reflexivity.
  - vm_compute. reflexivity.
Defined.

(** *** Shadowing *)

(** C5.  In a tree of containers, a key bound in a child and in its parent
    resolves on the child to the child's binding; [child.destroy()] then
    finishes, and afterwards the parent still resolves the key to the
    binding it had. *)
Theorem child_shadows_parent toString N h child p oc op k vc vp c :
  tree_shaped N h ->
  injectors h !! child = Some oc ->
  parent oc = Some p ->
  injectors h !! p = Some op ->
  _providers oc !! k = Some vc ->
  _providers op !! k = Some vp ->
  (∀ n, get toString (S n) child k c h = Some (Returned vc)) ∧
  ∃ h', destroy (N - child) child h = Some h' ∧
        ∀ n, get toString (S n) p k c h' = Some (Returned vp).
Proof.
  intros Hwf Hc Hpar Hp Hkc Hkp. split.
  - intros n. simpl. rewrite Hc. simpl. by rewrite Hkc.
  - destruct (Hwf child oc Hc) as (HN & Hlt & _). rewrite Hpar in Hlt.
    destruct Hlt as [Hlt _].
    destruct (destroy_total N (N - child) child h) as (h' & Hd & _ & Hk);
      [done|by eexists|lia|].
    exists h'. split; [done|]. intros n. simpl.
    rewrite (Hk p Hlt), Hp. simpl. by rewrite Hkp.
Qed.

Lemma child_shadows_parent_witness :
  (∀ n, get Sample.toString (S n) 1 (KToken "config") None Sample.shadowing
        = Some (Returned (SValue (VStr "inner")))) ∧
  ∃ h', destroy (2 - 1) 1 Sample.shadowing = Some h' ∧
        ∀ n, get Sample.toString (S n) 0 (KToken "config") None h'
             = Some (Returned (SValue (VStr "outer"))).
Proof.
  apply (child_shadows_parent Sample.toString 2 Sample.shadowing 1 0
           {| _uid := "uid-first";
              _providers :=
                <[KToken "config" := SValue (VStr "inner")]>
                  (<[Injector_class := SInjector 1]>
                     (<[class_key Sample.Alpha := SInstance 0]> ∅));
              _children := 1; parent := Some 0 |}
           {| _uid := "uid-root";
              _providers := <[KToken "config" := SValue (VStr "outer")]> ∅;
              _children := 0; parent := None |}
           (KToken "config") (SValue (VStr "inner")) (SValue (VStr "outer"))
           None).
  - apply (bool_decide_unpack (tree_shaped 2 Sample.shadowing)).
    vm_compute. exact I.
  - vm_compute. reflexivity.
  - reflexivity.
  - vm_compute. reflexivity.
  - vm_compute. reflexivity.
  - vm_compute. reflexivity.
Defined.

(** *** The "no provider" error *)

(** The error comes from the top of the chain of parents. *)
Lemma get_unbound_throws_at_top toString h k c :
  ∀ a top o_top,
    ancestor h a top ->
    injectors h !! top = Some o_top ->
    parent o_top = None ->
    (∀ b ob, ancestor h a b -> injectors h !! b = Some ob ->
             _providers ob !! k = None) ->
    ∃ n0, ∀ n, n0 ≤ n ->
      get toString n a k c h
        = Some (Thrown (no_provider_message toString k c (_uid o_top))).
Proof.
  intros a top o_top Hanc. induction Hanc as [a | a o p top Ha Hp Hanc IH];
    intros Htop Hroot Hunbound.
  - exists 1. intros [|n] Hn; [lia|]. simpl. rewrite Htop. simpl.
    rewrite (Hunbound a o_top (ancestor_self h a) Htop). by rewrite Hroot.
  - destruct IH as (n0 & IH); [done|done| |].
    { intros b ob Hb. apply Hunbound. by eapply ancestor_parent. }
    exists (S n0). intros [|n] Hn; [lia|]. simpl. rewrite Ha. simpl.
    rewrite (Hunbound a o (ancestor_self h a) Ha), Hp. apply IH. lia.
Qed.

(** C4 as the code has it.  When no container from the one asked up to the
    top of its chain of parents binds the key, [get] throws an error whose
    message names the key, names the requesting class when one is supplied,
    and ends with the identifier of the container at the top of the chain,
    the one that has no parent. *)
Theorem get_no_provider toString h a top o_top k c :
  ancestor h a top ->
  injectors h !! top = Some o_top ->
  parent o_top = None ->
  (∀ b ob, ancestor h a b -> injectors h !! b = Some ob ->
           _providers ob !! k = None) ->
  ∃ message,
    (∃ n0, ∀ n, n0 ≤ n -> get toString n a k c h = Some (Thrown message)) ∧
    String.prefix "No provider for " message = true ∧
    contains (key_label toString k) message = true ∧
    (∀ requester, c = Some requester ->
       contains (requester_label requester) message = true) ∧
    contains (_uid o_top) message = true.
Proof.
  intros Hanc Htop Hroot Hunbound.
  exists (no_provider_message toString k c (_uid o_top)). split.
  - by eapply get_unbound_throws_at_top.
  - unfold no_provider_message. destruct c as [requester|].
    + split; [apply prefix_append|].
      split; [apply contains_skip, contains_here|]. split.
      * intros ? [= <-]. do 3 apply contains_skip. apply contains_here.
      * do 4 apply contains_skip. apply contains_end.
    + split; [apply prefix_append|].
      split; [apply contains_skip, contains_here|]. split; [done|].
      do 2 apply contains_skip. apply contains_end.
Qed.

Lemma get_no_provider_witness :
  ∃ message,
    (∃ n0, ∀ n, n0 ≤ n ->
       get Sample.toString n 1 (KToken "missing")
         (Some (Sample.verifyProvider Sample.Beta)) Sample.one_child
       = Some (Thrown message)) ∧
    String.prefix "No provider for " message = true ∧
    contains (key_label Sample.toString (KToken "missing")) message = true ∧
    (∀ requester, Some (Sample.verifyProvider Sample.Beta) = Some requester ->
       contains (requester_label requester) message = true) ∧
    contains "uid-root" message = true.
Proof.
  apply (get_no_provider Sample.toString Sample.one_child 1 0
           {| _uid := "uid-root"; _providers := ∅; _children := 0;
              parent := None |}
           (KToken "missing") (Some (Sample.verifyProvider Sample.Beta))).
  - eapply ancestor_parent; [vm_compute; reflexivity|reflexivity|].
    apply ancestor_self.
  - vm_compute. reflexivity.
  - reflexivity.
  - intros b ob Hb Hob.
    assert (Hcases : b = 1 ∨ b = 0).
    { inversion Hb as [|? o p ? Ho Hp Hup]; subst; [by left|].
      vm_compute in Ho. injection Ho as <-. simpl in Hp.
      injection Hp as <-.
      inversion Hup as [|? o' p' ? Ho' Hp' _]; subst; [by right|].
      vm_compute in Ho'. injection Ho' as <-. discriminate Hp'. }
    destruct Hcases as [-> | ->]; vm_compute in Hob; injection Hob as <-;
      vm_compute; reflexivity.
Defined.

(** C4 as stated fails.  [get] of an unbound key on a child whose parent
    does not bind it either throws the parent's error: the message carries
    the identifier of the parent, [uid-root], and not the identifier of the
    container that was asked, [uid-first]. *)
Lemma get_no_provider_names_the_top_container :
  (_uid <$> injectors Sample.one_child !! 1) = Some "uid-first" ∧
  get Sample.toString 2 1 (KToken "missing") None Sample.one_child
    = Some (Thrown "No provider for missing, injector: uid-root") ∧
  contains "uid-first" "No provider for missing, injector: uid-root" = false.
Proof. vm_compute. repeat split. Qed.

(** *** The post-construction hook *)

Section Respects.

Variable R : Heap -> Heap -> Prop.
Hypothesis R_refl : ∀ h, R h h.
Hypothesis R_trans : ∀ h1 h2 h3, R h1 h2 -> R h2 h3 -> R h1 h3.

Lemma respects_mret {A} (a : A) : respects R (mret a).
Proof. intros h r h' [= <- <-]. apply R_refl. Qed.

Lemma respects_mbind {A B} (m : M A) (f : A -> M B) :
  respects R m -> (∀ a, respects R (f a)) -> respects R (mbind m f).
Proof.
  intros Hm Hf h r h' H. unfold mbind in H.
  destruct (m h) as [[[a|e] h1]|] eqn:Hmh; [| |done].
  - eapply R_trans; [by eapply Hm|by eapply Hf].
  - injection H as <- <-. by eapply Hm.
Qed.

Lemma respects_mread {A} (f : Heap -> option (Outcome string A)) :
  respects R (mread f).
Proof.
  intros h r h' H. unfold mread in H. destruct (f h); [|done].
  injection H as <- <-. apply R_refl.
Qed.

Lemma respects_mforEach {A} (cb : A -> M unit) l :
  (∀ x, respects R (cb x)) -> respects R (mforEach cb l).
Proof.
  intros Hcb. induction l as [|x l IH]; simpl.
  - apply respects_mret.
  - apply respects_mbind; [apply Hcb|]. intros _. apply IH.
Qed.

Lemma respects_mmap {A B} (cb : A -> M B) l :
  (∀ x, respects R (cb x)) -> respects R (mmap cb l).
Proof.
  intros Hcb. induction l as [|x l IH]; simpl.
  - apply respects_mret.
  - apply respects_mbind; [apply Hcb|]. intros y.
    apply respects_mbind; [apply IH|]. intros ys. apply respects_mret.
Qed.

(** When the four store updates of [createAndResolve] respect [R], so
    does [createAndResolve]. *)
Hypothesis R_set : ∀ this k v, respects R (mlift (set this k v)).
Hypothesis R_construct : ∀ c args, respects R (Reflect_construct c args).
Hypothesis R_define :
  ∀ id name v w, respects R (Reflect_defineProperty id name v w).
Hypothesis R_hook :
  ∀ id h, is_Some (instances h !! id) ->
          R h (add_event (EvAfterConstruct id []) h).

Variable toString : string -> string.
Variable getConstructorProviders : Key -> list IProvider.
Variable mergeProviders : list IProvider -> list IProvider -> list IProvider.
Variable getConstructorInjectKeys : Key -> list Key.
Variable getConstructorPrototypeKeys : Class -> option (list IInjectKey).

Lemma respects_createAndResolve :
  ∀ fuel this provider providers,
    respects R
      (createAndResolve toString getConstructorProviders mergeProviders
         getConstructorInjectKeys getConstructorPrototypeKeys
         fuel this provider providers).
Proof.
  induction fuel as [|n IH]; intros this provider providers; [done|].
  simpl. apply respects_mbind.
  { apply respects_mforEach. intros item.
    apply respects_mbind; [apply IH|]. intros _. apply respects_mret. }
  intros _. destruct (isPresent (useValue provider)).
  { apply respects_mbind; [apply R_set|]. intros _. apply respects_mread. }
  apply respects_mbind.
  { apply respects_mmap. intros arg. apply respects_mread. }
  intros args. apply respects_mbind; [apply R_construct|].
  intros id. apply respects_mbind.
  { destruct (useClass provider) as [c|]; [|apply respects_mret].
    destruct (getConstructorPrototypeKeys c) as [keys|];
      [|apply respects_mret].
    apply respects_mforEach. intros item.
    apply respects_mbind; [apply respects_mread|]. intros v.
    apply R_define. }
  intros _. apply respects_mbind; [apply R_set|].
  intros _. apply respects_mbind.
  { intros h r h' H. destruct (useClass provider) as [c|]; [|done].
    destruct (instances h !! id) as [i|] eqn:Hi; [|done].
    destruct (hook_guard c i).
    - injection H as <- <-. apply R_hook. eauto.
    - injection H as <- <-. apply R_refl. }
  intros _. apply respects_mbind; [apply R_set|].
  intros _. apply respects_mret.
Qed.

End Respects.










(** *** The shape is kept by the entry points *)

Lemma only_bindings_refl h : only_bindings h h.
Proof. split; [done|]. intros a. by destruct (injectors h !! a). Qed.

Lemma only_bindings_trans h1 h2 h3 :
  only_bindings h1 h2 -> only_bindings h2 h3 -> only_bindings h1 h3.
Proof.
  intros [Ha12 Hi12] [Ha23 Hi23]. split; [congruence|]. intros a.
  specialize (Hi12 a). specialize (Hi23 a).
  destruct (injectors h1 !! a), (injectors h2 !! a), (injectors h3 !! a);
    try done.
  destruct Hi12, Hi23. split; congruence.
Qed.

Lemma only_bindings_same h h' :
  injectors h' = injectors h -> arrays h' = arrays h -> only_bindings h h'.
Proof.
  intros Hi Ha. split; [done|]. intros a. rewrite Hi.
  by destruct (injectors h !! a).
Qed.

Lemma only_bindings_set this k v : respects only_bindings (mlift (set this k v)).
Proof.
  intros h r h' H. unfold mlift, set in H.
  destruct (injectors h !! this) as [o|] eqn:Ho; [|done]. simpl in H.
  injection H as <- <-. split; [done|]. intros a. simpl.
  destruct (decide (this = a)) as [<-|Hne].
  - by rewrite lookup_insert_eq, Ho.
  - rewrite lookup_insert_ne by done. by destruct (injectors h !! a).
Qed.

Lemma only_bindings_construct c args :
  respects only_bindings (Reflect_construct c args).
Proof.
  intros h r h' H. unfold Reflect_construct in H.
  destruct c; injection H as <- <-; by apply only_bindings_same.
Qed.

Lemma only_bindings_defineProperty id name v w :
  respects only_bindings (Reflect_defineProperty id name v w).
Proof.
  intros h r h' H. unfold Reflect_defineProperty in H.
  destruct (instances h !! id); [|done]. simpl in H.
  injection H as <- <-. by apply only_bindings_same.
Qed.

Lemma tree_shaped_only_bindings N h h' :
  only_bindings h h' -> tree_shaped N h -> tree_shaped N h'.
Proof.
  intros [Harr Hinj] Hwf a o' Ha'.
  assert (Halloc : ∀ q, is_Some (injectors h !! q) ->
                        is_Some (injectors h' !! q)).
  { intros q [oq Hq]. specialize (Hinj q). rewrite Hq in Hinj.
    destruct (injectors h' !! q); [eauto|done]. }
  pose proof (Hinj a) as Hia. rewrite Ha' in Hia.
  destruct (injectors h !! a) as [o|] eqn:Ha; [|done].
  destruct Hia as [Hc Hp].
  destruct (Hwf a o Ha) as (HN & Hpo & Hco).
  split; [done|]. rewrite Hp, Hc, Harr. split.
  - destruct (parent o) as [q|]; [|done]. destruct Hpo. split; auto.
  - destruct (arrays h !! _children o); [|done].
    eapply Forall_impl; [exact Hco|]. intros x [? ?]. split; auto.
Qed.

Lemma tree_shaped_empty : tree_shaped 0 empty_heap.
Proof. intros a o Ha. simpl in Ha. by rewrite lookup_empty in Ha. Qed.

Lemma tree_shaped_set N this k v h h' :
  tree_shaped N h -> set this k v h = Some h' -> tree_shaped N h'.
Proof.
  intros Hwf H. eapply tree_shaped_only_bindings; [|exact Hwf].
  apply (only_bindings_set this k v h (Returned tt) h'). unfold mlift.
  by rewrite H.
Qed.

Lemma tree_shaped_mono N N' h : N ≤ N' -> tree_shaped N h -> tree_shaped N' h.
Proof.
  intros HN Hwf a o Ha. destruct (Hwf a o Ha) as (? & ? & ?).
  split; [lia|done].
Qed.

(** The first number not in use is above all those in use. *)
Lemma fresh_nat_gt (X : gset nat) x : x ∈ X -> x < fresh X.
Proof.
  intros Hx. apply elem_of_elements in Hx.
  unfold fresh, set_fresh, fresh, infinite_fresh. simpl.
  induction Hx as [x l|x y l Hx IH]; simpl; lia.
Qed.

Lemma tree_shaped_new_Injector N uid p h :
  tree_shaped N h ->
  (∀ q, p = Some q -> is_Some (injectors h !! q)) ->
  tree_shaped (N `max` S (new_Injector uid p h).1) (new_Injector uid p h).2.
Proof.
  intros Hwf Hp. unfold new_Injector. simpl.
  set (a := fresh (dom (injectors h))). set (r := fresh (dom (arrays h))).
  assert (Hr : arrays h !! r = None).
  { apply not_elem_of_dom. apply is_fresh. }
  assert (Halloc : ∀ x o', is_Some (injectors h !! x) ->
                           is_Some (<[a:=o']> (injectors h) !! x)).
  { intros x o' Hx. destruct (decide (a = x)) as [->|].
    - rewrite lookup_insert_eq. eauto.
    - by rewrite lookup_insert_ne. }
  intros b ob Hb. simpl in Hb. destruct (decide (a = b)) as [<-|Hne].
  - rewrite lookup_insert_eq in Hb. injection Hb as <-.
    split; [lia|]. simpl. split.
    + destruct p as [q|]; [|done]. destruct (Hp q eq_refl) as [oq Hq].
      split; [|apply Halloc; eauto].
      apply fresh_nat_gt, elem_of_dom. eauto.
    + rewrite lookup_insert_eq. constructor.
  - rewrite lookup_insert_ne in Hb by done.
    destruct (Hwf b ob Hb) as (HN & Hpo & Hco).
    split; [lia|]. simpl. split.
    + destruct (parent ob); [|done]. destruct Hpo. split; auto.
    + destruct (arrays h !! _children ob) as [l|] eqn:Hl; [|done].
      rewrite lookup_insert_ne by congruence. rewrite Hl.
      eapply Forall_impl; [exact Hco|]. intros x [? ?]. split; auto.
Qed.

Lemma mbind_returned {A B} (m : M A) (f : A -> M B) h b h' :
  mbind m f h = Some (Returned b, h') ->
  ∃ a h1, m h = Some (Returned a, h1) ∧ f a h1 = Some (Returned b, h').
Proof.
  unfold mbind. intros H. destruct (m h) as [[[a|e] h1]|]; [|done|done].
  eauto.
Qed.

Lemma mread_heap {A} (f : Heap -> option (Outcome string A)) h r h' :
  mread f h = Some (r, h') -> h' = h.
Proof. unfold mread. destruct (f h); [|done]. by intros [= _ <-]. Qed.









Section ResolveFacts.

Variable toString : string -> string.
Variable getConstructorProviders : Key -> list IProvider.
Variable mergeProviders : list IProvider -> list IProvider -> list IProvider.
Variable getConstructorInjectKeys : Key -> list Key.
Variable getConstructorPrototypeKeys : Class -> option (list IInjectKey).

Local Abbreviation resolve :=
  (createAndResolve toString getConstructorProviders mergeProviders
     getConstructorInjectKeys getConstructorPrototypeKeys).


Lemma createAndResolve_only_bindings fuel this provider providers :
  respects only_bindings (resolve fuel this provider providers).
Proof.
  apply respects_createAndResolve;
    auto using only_bindings_refl, only_bindings_set,
      only_bindings_construct, only_bindings_defineProperty.
  - apply only_bindings_trans.
  - intros id h _. by apply only_bindings_same.
Qed.

Variable verifyProvider : Class -> IProvider.
Variable verifyProviders : list (IProvider + Class) -> list IProvider.

(** [Injector.createAndResolveChild] on a tree of containers with a parent
    of that tree gives a tree again, with the child as its newest
    container. *)
Lemma createAndResolveChild_tree_shaped N fuel uid p c providers h child h' :
  tree_shaped N h ->
  is_Some (injectors h !! p) ->
  createAndResolveChild toString getConstructorProviders mergeProviders
    getConstructorInjectKeys getConstructorPrototypeKeys verifyProvider
    verifyProviders fuel uid p c providers h = Some (Returned child, h') ->
  tree_shaped (N `max` S child) h'.
Proof.
  intros Hwf [op Hop] H. unfold createAndResolveChild in H.
  pose proof (tree_shaped_new_Injector N uid (Some p) h Hwf) as Hwf1.
  unfold new_Injector in H, Hwf1. simpl in Hwf1.
  set (a := fresh (dom (injectors h))) in *.
  set (r := fresh (dom (arrays h))) in *.
  set (h1 := set_injector a _ (set_array r [] h)) in *.
  apply mbind_returned in H as (v & h2 & Hres & H).
  apply mbind_returned in H as ([] & h3 & Hset & H).
  injection H as <- <-.
  apply createAndResolve_only_bindings in Hres as Hob.
  assert (Hwf2 : tree_shaped (N `max` S a) h2).
  { eapply tree_shaped_only_bindings; [exact Hob|]. apply Hwf1.
    intros q [= <-]. eauto. }
  destruct Hob as [Harr Hinj].
  unfold mlift, setChild in Hset.
  destruct (injectors h2 !! p) as [op2|] eqn:Hop2; [|done]. simpl in Hset.
  destruct (arrays h2 !! _children op2) as [l|] eqn:Hl; [|done].
  simpl in Hset. injection Hset as <-.
  assert (Hpa : p ≠ a).
  { intros ->. apply (is_fresh (dom (injectors h))). fold a.
    apply elem_of_dom. eauto. }
  assert (Hrp : _children op2 ≠ r).
  { pose proof (Hinj p) as Hp. rewrite Hop2 in Hp. subst h1. simpl in Hp.
    rewrite lookup_insert_ne, Hop in Hp by done. destruct Hp as [-> _].
    intros Heq. destruct (Hwf p op Hop) as (_ & _ & Hc).
    rewrite Heq in Hc.
    assert (arrays h !! r = None) as Hnone
      by (apply not_elem_of_dom, is_fresh).
    by rewrite Hnone in Hc. }
  intros b ob Hb. simpl in Hb.
  destruct (Hwf2 b ob Hb) as (HN & Hpo & Hco).
  split; [done|]. split; [done|]. simpl.
  destruct (decide (_children op2 = _children ob)) as [Heq|Hne].
  - rewrite Heq, lookup_insert_eq. rewrite <- Heq, Hl in Hco.
    apply Forall_app. split; [done|]. constructor; [|constructor].
    pose proof (Hinj b) as Hib. rewrite Hb in Hib. subst h1. simpl in Hib.
    destruct (decide (a = b)) as [<-|Hab].
    + rewrite lookup_insert_eq in Hib. destruct Hib as [Hcb _].
      simpl in Hcb. congruence.
    + rewrite lookup_insert_ne in Hib by done.
      destruct (injectors h !! b) as [ob0|] eqn:Hb0; [|done]. split.
      * apply fresh_nat_gt, elem_of_dom. eauto.
      * pose proof (Hinj a) as Hia. simpl in Hia.
        rewrite lookup_insert_eq in Hia.
        destruct (injectors h2 !! a); [eauto|done].
  - by rewrite lookup_insert_ne.
Qed.

(** The static [Injector.createAndResolve] on a tree of containers gives a
    tree again, with the new container, which has no parent, in it. *)
Lemma static_createAndResolve_tree_shaped N fuel uid c providers h inj h' :
  tree_shaped N h ->
  static_createAndResolve toString getConstructorProviders mergeProviders
    getConstructorInjectKeys getConstructorPrototypeKeys verifyProvider
    verifyProviders fuel uid c providers h = Some (Returned inj, h') ->
  tree_shaped (N `max` S inj) h'.
Proof.
  intros Hwf H. unfold static_createAndResolve in H.
  pose proof (tree_shaped_new_Injector N uid None h Hwf) as Hwf1.
  unfold new_Injector in H, Hwf1. simpl in Hwf1.
  apply mbind_returned in H as (v & h2 & Hres & H).
  injection H as <- <-.
  apply createAndResolve_only_bindings in Hres.
  eapply tree_shaped_only_bindings; [exact Hres|]. by apply Hwf1.
Qed.


End ResolveFacts.



(** The events of the two sample resolutions: [Alpha] gets its hook called
    after construction; [Beta], which only inherits the hook, gets none,
    while the [Alpha] it depends on does. *)
Example sample_events :
  events Sample.alpha_resolved
    = [EvConstruct 0 Sample.Alpha []; EvAfterConstruct 0 []] ∧
  events Sample.beta_resolved
    = [EvConstruct 0 Sample.Alpha []; EvAfterConstruct 0 [];
       EvConstruct 1 Sample.Beta [SInstance 0];
       EvDefineProperty 1 "config" (SValue (VStr "cfg")) false].
Proof. split; vm_compute; reflexivity. Qed.

End InjectorSpec.

(** * Properties of the request orchestrator *)

Module RequestSpec.

Import Request.

Lemma statuses_app l1 l2 : statuses (l1 ++ l2) = statuses l1 ++ statuses l2.
Proof. unfold statuses. apply omap_app. Qed.

Lemma count_app p l1 l2 : count p (l1 ++ l2) = count p l1 + count p l2.
Proof. unfold count. by rewrite List.filter_app, length_app. Qed.

Lemma steady_refl st : steady st st.
Proof.
  repeat split. exists []. by rewrite app_nil_r.
Qed.

Lemma steady_trans st1 st2 st3 :
  steady st1 st2 -> steady st2 st3 -> steady st1 st3.
Proof.
  intros (Hr12 & Hq12 & Hc12 & n12 & He12 & Hn12)
         (Hr23 & Hq23 & Hc23 & n23 & He23 & Hn23).
  split; [congruence|]. split; [congruence|]. split; [congruence|].
  exists (n12 ++ n23). split.
  - by rewrite He23, He12, app_assoc.
  - rewrite forallb_app. by rewrite Hn12, Hn23.
Qed.

Lemma calm_pret {A} (a : A) : calm (pret a).
Proof. intros st. apply steady_refl. Qed.

Lemma calm_pthrow {A} e : calm (@pthrow A e).
Proof. intros st. apply steady_refl. Qed.

Lemma calm_plift {A} (o : Outcome Value A) : calm (plift o).
Proof. intros st. apply steady_refl. Qed.

Lemma calm_read {A} (f : Request -> A) : calm (read f).
Proof. intros st. apply steady_refl. Qed.

Lemma calm_effect e : quiet_effect e = true -> calm (effect e).
Proof.
  intros He st. repeat split. exists [e]. simpl. by rewrite He.
Qed.

Lemma calm_write_statusCode c : calm (write_statusCode c).
Proof. intros st. repeat split. exists []. simpl. by rewrite app_nil_r. Qed.

Lemma calm_pbind {A B} (m : P A) (f : A -> P B) :
  calm m -> (∀ a, calm (f a)) -> calm (pbind m f).
Proof.
  intros Hm Hf st. unfold pbind. specialize (Hm st).
  destruct (m st) as [[a|e] st1]; simpl in *; [|done].
  eapply steady_trans; [exact Hm|apply Hf].
Qed.

Lemma calm_pcatch {A} (m : P A) (f : Value -> P A) :
  calm m -> (∀ e, calm (f e)) -> calm (pcatch m f).
Proof.
  intros Hm Hf st. unfold pcatch. specialize (Hm st).
  destruct (m st) as [[a|e] st1]; simpl in *; [done|].
  eapply steady_trans; [exact Hm|apply Hf].
Qed.

Lemma count_quiet l :
  forallb quiet_effect l = true -> count is_Emit_destroy l = 0.
Proof.
  unfold count. induction l as [|e l IH]; [done|]. simpl.
  intros [He Hl]%andb_prop. destruct e; simpl in *; try discriminate;
    by apply IH.
Qed.

Section Facts.

Variable clean : string -> string.
Variable HttpError_toString : Value -> string.
Variable captured_stack : Value.
Variable Methods_text : Methods -> string.
Variable invoke : Value -> string -> Outcome Value Value.

Local Abbreviation render := (Request.render captured_stack).
Local Abbreviation force_HttpError := (Request.force_HttpError captured_stack).
Local Abbreviation recover_first :=
  (Request.recover_first clean HttpError_toString captured_stack invoke).
Local Abbreviation handle :=
  (Request.handle clean HttpError_toString captured_stack Methods_text invoke).
Local Abbreviation run :=
  (Request.run clean HttpError_toString captured_stack Methods_text invoke).

(** *** Rendering *)

(** C9.  [render] of a string or a buffer logs, writes the head with the
    current status code and the content type [text/html], writes the payload,
    ends the response and returns the payload.  [render] of anything else
    writes nothing to the response: it logs "Invalid response type" at error
    level with the value, and then throws an [HttpError] with code 500 whose
    data carry the value. *)
Theorem render_type_guard response st :
  if isString response || instanceof_Buffer response then
    (render response st).1 = Returned response ∧
    effects (render response st).2 = effects st ++ rendered st response ∧
    statusCode (render response st).2 = statusCode st
  else
    (render response st).1 =
      Thrown (VHttpError 500 (VStr "ResponseType must be string or buffer")
                (VRecord [("response", response)]) captured_stack) ∧
    effects (render response st).2 =
      effects st ++
      [ Log INFO (VStr "Request.render") (VRecord [("id", VStr (id st))]);
        Log ERROR (VStr "Invalid response type")
          (VRecord [("id", VStr (id st)); ("response", response);
                    ("type", VStr (typeof response))]) ] ∧
    statuses (effects (render response st).2) = statuses (effects st).
Proof.
  unfold Request.render, pbind, read, effect, pret, pthrow, new_HttpError.
  simpl. destruct (isString response || instanceof_Buffer response); simpl.
  - rewrite <- !app_assoc. done.
  - rewrite <- !app_assoc. simpl. split; [done|]. split; [done|].
    rewrite statuses_app. simpl. by rewrite app_nil_r.
Qed.

(** *** The first recovery stage *)

(** Every value other than [undefined] and [null] is turned into an
    [HttpError]: itself when it is one already, otherwise a new one with
    code 500 and the message and stack read from the value. *)
Lemma force_HttpError_present v :
  isPresent v = true ->
  ∃ code m d s,
    force_HttpError v = Returned (VHttpError code m d s) ∧
    (instanceof_HttpError v = true -> v = VHttpError code m d s) ∧
    (instanceof_HttpError v = false ->
       code = 500%Z ∧ d = VRecord [] ∧
       get_prop v "message" = Returned m ∧ get_prop v "stack" = Returned s).
Proof.
  intros Hv. unfold Request.force_HttpError, new_HttpError.
  destruct v; try discriminate Hv; simpl;
    try (by eexists 500%Z, _, _, _; split; [reflexivity|split; [done|done]]).
  eexists _, _, _, _. split; [reflexivity|]. split; [done|done].
Qed.

(** With the normalised error in hand, the stage logs it, sets the status
    code from it and renders its cleaned text. *)
Lemma recover_first_renders v st code m d s :
  force_HttpError v = Returned (VHttpError code m d s) ->
  let e := VHttpError code m d s in
  let text := VStr (clean (HttpError_toString e)) in
  (recover_first v st).1 = Returned text ∧
  statusCode (recover_first v st).2 = VNum code ∧
  effects (recover_first v st).2 =
    effects st ++ Log ERROR m (error_context st e) ::
    rendered (with_statusCode (VNum code) st) text.
Proof.
  intros Hforce e text.
  unfold Request.recover_first, pbind, plift. rewrite Hforce. simpl.
  unfold pbind, read, effect, write_statusCode, pret. simpl.
  rewrite <- !app_assoc. done.
Qed.

(** C7 at [undefined] (and [null]): the first recovery stage does not
    build a structured error.  Reading [message] from the value throws a
    [TypeError], so the stage throws that instead, with the status code
    not set and nothing logged or rendered. *)
Theorem recover_first_fails_on_undefined st :
  force_HttpError VUndefined
    = Thrown (TypeError "Cannot read property 'message'") ∧
  force_HttpError VNull
    = Thrown (TypeError "Cannot read property 'message'") ∧
  recover_first VUndefined st
    = (Thrown (TypeError "Cannot read property 'message'"), st) ∧
  recover_first VNull st
    = (Thrown (TypeError "Cannot read property 'message'"), st).
Proof. repeat split. Qed.

(** For a value that is neither [undefined], [null] nor an [HttpError],
    the first recovery stage builds an [HttpError] with code 500 and the
    message and stack of the value, then sets the status code to 500 and
    renders the cleaned text of the error with that status. *)
Lemma recover_first_normalises v st :
  isPresent v = true ->
  instanceof_HttpError v = false ->
  ∃ m s,
    get_prop v "message" = Returned m ∧
    get_prop v "stack" = Returned s ∧
    force_HttpError v = Returned (VHttpError 500 m (VRecord []) s) ∧
    statusCode (recover_first v st).2 = VNum 500 ∧
    statuses (effects (recover_first v st).2)
      = statuses (effects st) ++ [VNum 500].
Proof.
  intros Hv Hi.
  destruct (force_HttpError_present v Hv) as (code & m & d & s & Hf & _ & Hn).
  destruct (Hn Hi) as (-> & -> & Hm & Hs).
  destruct (recover_first_renders v st _ _ _ _ Hf) as (_ & Hc & He).
  exists m, s. repeat split; try done.
  rewrite He, statuses_app. done.
Qed.

(** *** The pipeline after a rejection by the router *)

(** A rejection with any value other than [undefined] and [null] ends in
    one response: the promise of [process] is fulfilled and the head is
    written once, with the code of the error when the value is an
    [HttpError] and with 500 otherwise. *)
Lemma rejection_is_rendered v st :
  isPresent v = true ->
  let st' := handle (RouterSettles (Thrown v)) (process st) in
  ∃ text new,
    promise st' = Settled (Returned (VStr text)) ∧
    effects st' = effects st ++ new ∧
    statuses new =
      [ match v with VHttpError code _ _ _ => VNum code | _ => VNum 500 end ].
Proof.
  intros Hv st'.
  destruct (force_HttpError_present v Hv) as (code & m & d & s & Hf & Hy & Hn).
  destruct (recover_first_renders v (process st) code m d s Hf)
    as (Hres & _ & Heff).
  set (e := VHttpError code m d s) in *.
  exists (clean (HttpError_toString e)).
  exists (Log ERROR m (error_context (process st) e) ::
          rendered (with_statusCode (VNum code) (process st))
            (VStr (clean (HttpError_toString e)))).
  assert (Hst' : st' =
            with_promise (Settled (recover_first v (process st)).1)
              (recover_first v (process st)).2).
  { subst st'. unfold Request.handle, router_settles.
    replace (promise (process st)) with AwaitingRouter by done.
    unfold settle, chain, pcatch, pbind, plift.
    destruct (Request.recover_first _ _ _ _ v (process st)) as [[r|r] st1];
      [done|]. simpl in Hres. discriminate Hres. }
  rewrite Hst'. simpl. rewrite Hres, Heff. split; [done|]. split.
  - unfold process. by destruct (negb (isForwarded st)).
  - simpl. destruct (instanceof_HttpError v) eqn:Hi.
    + rewrite (Hy eq_refl). done.
    + destruct (Hn eq_refl) as (-> & _). by destruct v.
Qed.

(** Whatever the router answers, the chain of [process] ends fulfilled:
    the promise is never rejected. *)
Lemma chain_never_rejects r st :
  ∃ v,
    (chain clean HttpError_toString captured_stack Methods_text invoke r st).1
      = Returned v.
Proof.
  destruct r as [resolvedRoute|e].
  - eexists. reflexivity.
  - destruct (isPresent e) eqn:He.
    + destruct (force_HttpError_present e He) as (code & m & d & s & Hf & _).
      destruct (recover_first_renders e st code m d s Hf) as (Hres & _).
      exists (VStr (clean (HttpError_toString (VHttpError code m d s)))).
      unfold chain, pcatch, pbind, plift.
      destruct (Request.recover_first _ _ _ _ e st) as [[v|v] st1];
        simpl in *; [exact Hres|discriminate Hres].
    + destruct e; try discriminate He; eexists; reflexivity.
Qed.

(** C2 at [undefined] (and [null]): when the router rejects with it, the
    promise of [process] is fulfilled, but no response is written.  The
    first recovery stage throws a [TypeError], the second throws another
    because a [TypeError] has no [getCode], and the third logs that one and
    returns. *)
Theorem rejection_with_undefined_writes_nothing st :
  let st' := handle (RouterSettles (Thrown VUndefined)) (process st) in
  let st'' := handle (RouterSettles (Thrown VNull)) (process st) in
  promise st' = Settled (Returned VUndefined) ∧
  statuses (effects st') = statuses (effects st) ∧
  count is_WriteHead (effects st') = count is_WriteHead (effects st) ∧
  promise st'' = Settled (Returned VUndefined) ∧
  statuses (effects st'') = statuses (effects st) ∧
  count is_WriteHead (effects st'') = count is_WriteHead (effects st).
Proof.
  unfold Request.handle, router_settles.
  replace (promise (process st)) with AwaitingRouter by done.
  unfold process. destruct (negb (isForwarded st)); simpl;
    rewrite !statuses_app, !count_app; simpl;
    rewrite !app_nil_r, !Nat.add_0_r; done.
Qed.

(** *** Collecting the body *)

Local Abbreviation route_logged := (Request.route_logged Methods_text).

Lemma on_route_result r st :
  on_route Methods_text r st =
    if mutating (method r) && negb (isForwarded st)
    then (Returned None,
          with_request_on (request_on st ++ body_listeners r)
            (with_effect (route_logged r st) st))
    else (Returned (Some r), with_effect (route_logged r st) st).
Proof.
  unfold on_route, pbind, read, effect, pret. simpl.
  by destruct (mutating (method r) && negb (isForwarded st)).
Qed.

Lemma process_keeps st :
  promise (process st) = AwaitingRouter ∧
  isForwarded (process st) = isForwarded st ∧
  request_on (process st) = request_on st ∧
  effects (process st) = effects st ∧
  data (process st) = data st ∧
  id (process st) = id st ∧
  statusCode (process st) = statusCode st ∧
  channel (process st) = channel st.
Proof. unfold process. by destruct (negb (isForwarded st)). Qed.

Lemma collect_chunks r chunks :
  ∀ st,
    request_on st = body_listeners r ->
    run (map RequestData chunks) st = with_data (data st ++ chunks) st.
Proof.
  induction chunks as [|chunk chunks IH]; intros st Hon.
  - destruct st. simpl. unfold with_data. simpl. by rewrite app_nil_r.
  - destruct st. simpl in Hon. subst. unfold Request.run. simpl.
    unfold Request.run in IH. rewrite IH by done.
    unfold with_data. simpl. by rewrite <- app_assoc.
Qed.

(** C8.  On a request with no listeners yet, after the router has resolved
    the route: for POST, PATCH and PUT on a request that is not forwarded,
    the promise stays pending and nothing is written while chunks arrive,
    the buffer grows by the chunks in their order of arrival, and at the end
    of the body the route resolved before is rendered.  For every other
    method, and for a forwarded request, no listener is put on the request,
    the route is rendered at once, and chunks that arrive leave the buffer as
    it is. *)
Theorem body_accumulation st r chunks :
  request_on st = [] ->
  let payload := VStr (route r +:+ Methods_text (method r)) in
  let st1 := handle (RouterSettles (Returned r)) (process st) in
  let st2 := run (map RequestData chunks) st1 in
  let st3 := handle RequestEnd st2 in
  if mutating (method r) && negb (isForwarded st) then
    request_on st1 = body_listeners r ∧
    promise st1 = AwaitingBody ∧
    statuses (effects st1) = statuses (effects st) ∧
    promise st2 = AwaitingBody ∧
    effects st2 = effects st1 ∧
    data st2 = data st ++ chunks ∧
    data st3 = data st ++ chunks ∧
    promise st3 = Settled (Returned payload) ∧
    effects st3 = effects st2 ++ rendered st payload
  else
    request_on st1 = [] ∧
    promise st1 = Settled (Returned payload) ∧
    (∃ log, effects st1 = effects st ++ log :: rendered st payload) ∧
    data st1 = data st ∧
    data st2 = data st ∧
    data st3 = data st.
Proof.
  intros Hon payload st1 st2 st3.
  destruct (process_keeps st) as (Hp & Hf & Hr & He & Hd & Hi & Hc & _).
  set (st0 := process st) in *. clearbody st0.
  assert (Hst1 : st1 =
            match on_route Methods_text r st0 with
            | (Returned None, st') => with_promise AwaitingBody st'
            | (Returned (Some r'), st') =>
                settle clean HttpError_toString captured_stack Methods_text
                  invoke (Returned r') st'
            | (Thrown e, st') =>
                settle clean HttpError_toString captured_stack Methods_text
                  invoke (Thrown e) st'
            end).
  { subst st1. unfold Request.handle, router_settles. by rewrite Hp. }
  rewrite on_route_result, Hf, Hr, Hon in Hst1.
  destruct (mutating (method r) && negb (isForwarded st)).
  - assert (Hon1 : request_on st1 = body_listeners r) by (by rewrite Hst1).
    assert (Hst2 : st2 = with_data (data st1 ++ chunks) st1)
      by (by apply (collect_chunks r)).
    assert (Hd1 : data st1 = data st) by (by rewrite Hst1).
    split; [done|]. split; [by rewrite Hst1|]. split.
    { rewrite Hst1. simpl. rewrite statuses_app, He. simpl.
      by rewrite app_nil_r. }
    rewrite Hst2. simpl. rewrite Hd1.
    split; [by rewrite Hst1|]. split; [done|]. split; [done|].
    subst st3. rewrite Hst2. unfold Request.handle, request_emit. simpl.
    rewrite Hon1. simpl. rewrite Hst1. simpl.
    rewrite Hd, Hi, Hc. unfold rendered. rewrite <- !app_assoc.
    repeat split; reflexivity.
  - assert (Hon1 : request_on st1 = [])
      by (rewrite Hst1; simpl; by rewrite Hr).
    assert (Hd1 : data st1 = data st) by (by rewrite Hst1).
    assert (Hquiet : ∀ l s, request_on s = [] -> data s = data st ->
              request_on (run (map RequestData l) s) = [] ∧
              data (run (map RequestData l) s) = data st).
    { induction l as [|c l IH]; intros s Hs Hds; [done|].
      unfold Request.run. simpl. apply IH.
      - unfold request_emit. by rewrite Hs.
      - unfold request_emit. by rewrite Hs. }
    destruct (Hquiet chunks st1 Hon1 Hd1) as [Hon2 Hd2].
    split; [done|]. split; [by rewrite Hst1|]. split.
    { rewrite Hst1. simpl. rewrite He, Hi, Hc. eexists. unfold rendered.
      rewrite <- !app_assoc. simpl. done. }
    split; [done|]. split; [done|].
    subst st3 st2. unfold Request.handle, request_emit.
    by rewrite Hon2.
Qed.

(** *** Teardown *)

Ltac calm_step :=
  first
    [ apply calm_pret | apply calm_pthrow | apply calm_plift
    | apply calm_read | apply calm_write_statusCode
    | apply calm_effect; reflexivity
    | apply calm_pbind; [|intros ?]
    | apply calm_pcatch; [|intros ?] ].

Lemma calm_render response : calm (render response).
Proof.
  unfold Request.render. repeat calm_step.
  destruct (isString response || instanceof_Buffer response);
    repeat calm_step.
Qed.

Lemma calm_chain r :
  calm (chain clean HttpError_toString captured_stack Methods_text invoke r).
Proof.
  unfold chain, Request.recover_first, recover_second, recover_last,
    render_route.
  repeat first [ apply calm_render | calm_step ].
Qed.

Lemma steady_settle r st :
  steady st
    (settle clean HttpError_toString captured_stack Methods_text invoke r st).
Proof.
  unfold settle. pose proof (calm_chain r st) as H.
  destruct (chain _ _ _ _ _ r st) as [o st']. exact H.
Qed.

Lemma wired_steady ch e0 st st' : wired ch e0 st -> steady st st' -> wired ch e0 st'.
Proof.
  intros (Hr & Hc & Hq & n & He & Hn) (Hr' & Hq' & Hc' & n' & He' & Hn').
  split; [congruence|]. split; [congruence|]. split; [congruence|].
  exists (n ++ n'). split.
  - by rewrite He', He, app_assoc.
  - rewrite forallb_app. by rewrite Hn, Hn'.
Qed.

Lemma wired_process st :
  isForwarded st = false -> response_on st = [] -> request_on st = [] ->
  wired (channel st) (effects st) (process st).
Proof.
  intros Hf Hr Hq. unfold wired, process. rewrite Hf. simpl.
  split; [by rewrite Hr|]. split; [done|]. split; [by rewrite Hq|].
  exists []. by rewrite app_nil_r.
Qed.

Lemma wired_callbacks ch e0 arg :
  ∀ fired st,
    forallb harmless fired = true -> wired ch e0 st ->
    wired ch e0
      (foldl (fun s l =>
                run_callback clean HttpError_toString captured_stack
                  Methods_text invoke (callback l) arg s) st fired).
Proof.
  induction fired as [|l fired IH]; intros st Hh Hw; [done|].
  simpl in Hh. apply andb_prop in Hh as [Hl Hh]. simpl. apply IH; [done|].
  unfold harmless in Hl. unfold run_callback.
  destruct (callback l); [done| |].
  - destruct Hw as (? & ? & ? & ?). by repeat split.
  - destruct (promise st); try done.
    eapply wired_steady; [exact Hw|apply steady_settle].
Qed.

Lemma forallb_filter {A} (p q : A -> bool) l :
  forallb p l = true -> forallb p (List.filter q l) = true.
Proof.
  induction l as [|x l IH]; [done|]. simpl. intros [Hx Hl]%andb_prop.
  destruct (q x); simpl; [rewrite Hx|]; by apply IH.
Qed.

Lemma wired_handle ch e0 s st :
  quiet_signal s = true -> wired ch e0 st -> wired ch e0 (handle s st).
Proof.
  intros Hs Hw. destruct s as [r|chunk| | |]; try discriminate Hs; simpl.
  - unfold router_settles. destruct (promise st); try done.
    destruct r as [r|e]; [|eapply wired_steady; [exact Hw|apply steady_settle]].
    rewrite on_route_result.
    destruct (mutating (method r) && negb (isForwarded st)).
    + destruct Hw as (Hr & Hc & Hq & n & He & Hn).
      split; [done|]. split; [done|]. split.
      * simpl. rewrite forallb_app. by rewrite Hq.
      * exists (n ++ [route_logged r st]). simpl. split.
        -- by rewrite He, app_assoc.
        -- rewrite forallb_app. by rewrite Hn.
    + eapply wired_steady; [|apply steady_settle].
      eapply wired_steady; [exact Hw|]. repeat split.
      by exists [route_logged r st].
  - unfold request_emit. destruct Hw as (Hr & Hc & Hq & Hn).
    apply wired_callbacks; [by apply forallb_filter|].
    split; [done|]. split; [done|]. split; [|done].
    simpl. by apply forallb_filter.
  - unfold request_emit. destruct Hw as (Hr & Hc & Hq & Hn).
    apply wired_callbacks; [by apply forallb_filter|].
    split; [done|]. split; [done|]. split; [|done].
    simpl. by apply forallb_filter.
Qed.

Lemma wired_run ch e0 :
  ∀ signals st,
    forallb quiet_signal signals = true -> wired ch e0 st ->
    wired ch e0 (run signals st).
Proof.
  induction signals as [|s signals IH]; intros st Hq Hw; [done|].
  simpl in Hq. apply andb_prop in Hq as [Hs Hq].
  unfold Request.run. simpl. apply IH; [done|]. by apply wired_handle.
Qed.

Lemma notify_all (listening : list (string * nat)) :
  ∀ st,
    let st' := foldl (fun s l => with_effect (Notify l.2) s) st listening in
    effects st' = effects st ++ map (fun l => Notify l.2) listening ∧
    response_on st' = response_on st.
Proof.
  induction listening as [|l listening IH]; intros st; simpl.
  - by rewrite app_nil_r.
  - destruct (IH (with_effect (Notify l.2) st)) as [He Hr].
    rewrite He, Hr. simpl. by rewrite <- app_assoc.
Qed.

Lemma destroy_effects st :
  effects (destroy st) = effects st ++ torn_down (channel st) ∧
  response_on (destroy st) = response_on st ∧
  channel (destroy st) = [].
Proof.
  unfold destroy, torn_down. simpl.
  destruct (notify_all
              (List.filter (fun l => String.eqb l.1 "destroy") (channel st))
              (with_effect (Emit "destroy") st)) as [He Hr].
  rewrite He, Hr. simpl. rewrite <- !app_assoc. done.
Qed.

Lemma signal_on_wired st :
  response_on st = wiring ->
  handle ResponseFinish st =
    destroy (with_response_on
               [ {| event := "close"; once := true; callback := CbDestroy |} ]
               st) ∧
  handle ResponseClose st =
    destroy (with_response_on
               [ {| event := "finish"; once := true; callback := CbDestroy |} ]
               st).
Proof.
  intros H. unfold Request.handle, response_emit. rewrite H. by split.
Qed.

Lemma signal_on_last st l :
  response_on st = [l] -> once l = true -> callback l = CbDestroy ->
  (event l = "close" ->
   handle ResponseClose st = destroy (with_response_on [] st)) ∧
  (event l = "finish" ->
   handle ResponseFinish st = destroy (with_response_on [] st)).
Proof.
  intros H Ho Hcb. destruct l as [ev o cb]. simpl in *. subst.
  unfold Request.handle, response_emit, listens. rewrite H.
  split; intros ->; reflexivity.
Qed.

(** Both signals on a wired orchestrator, in either order: [destroy] runs
    for each. *)
Lemma both_signals_tear_down_twice ch e0 st :
  wired ch e0 st ->
  effects (handle ResponseClose (handle ResponseFinish st))
    = effects st ++ torn_down ch ++ torn_down [] ∧
  effects (handle ResponseFinish (handle ResponseClose st))
    = effects st ++ torn_down ch ++ torn_down [].
Proof.
  intros (Hr & Hc & _).
  destruct (signal_on_wired st Hr) as [Hfinish Hclose].
  rewrite Hfinish, Hclose. split.
  - set (l := {| event := "close"; once := true; callback := CbDestroy |}).
    destruct (destroy_effects (with_response_on [l] st)) as (He1 & Hr1 & Hc1).
    destruct (signal_on_last (destroy (with_response_on [l] st)) l)
      as [Hlast _]; [by rewrite Hr1|done|done|]. rewrite Hlast by done.
    destruct (destroy_effects
                (with_response_on [] (destroy (with_response_on [l] st))))
      as (He2 & _ & _).
    rewrite He2.
    change (channel (with_response_on [] (destroy (with_response_on [l] st))))
      with (channel (destroy (with_response_on [l] st))).
    change (effects (with_response_on [] (destroy (with_response_on [l] st))))
      with (effects (destroy (with_response_on [l] st))).
    rewrite Hc1, He1.
    change (channel (with_response_on [l] st)) with (channel st).
    change (effects (with_response_on [l] st)) with (effects st).
    by rewrite Hc, <- app_assoc.
  - set (l := {| event := "finish"; once := true; callback := CbDestroy |}).
    destruct (destroy_effects (with_response_on [l] st)) as (He1 & Hr1 & Hc1).
    destruct (signal_on_last (destroy (with_response_on [l] st)) l)
      as [_ Hlast]; [by rewrite Hr1|done|done|]. rewrite Hlast by done.
    destruct (destroy_effects
                (with_response_on [] (destroy (with_response_on [l] st))))
      as (He2 & _ & _).
    rewrite He2.
    change (channel (with_response_on [] (destroy (with_response_on [l] st))))
      with (channel (destroy (with_response_on [l] st))).
    change (effects (with_response_on [] (destroy (with_response_on [l] st))))
      with (effects (destroy (with_response_on [l] st))).
    rewrite Hc1, He1.
    change (channel (with_response_on [l] st)) with (channel st).
    change (effects (with_response_on [l] st)) with (effects st).
    by rewrite Hc, <- app_assoc.
Qed.

(** C3 as the code has it.  On an orchestrator that is not forwarded,
    whatever the router and the request have signalled since [process], the
    signals [finish] and [close] each run [destroy], in either order: the
    first run emits [destroy] to the listeners of the event emitter and
    removes them, the second run emits [destroy] again, to nobody.  So
    [destroy] runs twice and [destroy] is emitted twice. *)
Theorem teardown_per_signal st before :
  isForwarded st = false ->
  response_on st = [] ->
  request_on st = [] ->
  forallb quiet_signal before = true ->
  let st1 := run before (process st) in
  effects (handle ResponseClose (handle ResponseFinish st1))
    = effects st1 ++ torn_down (channel st) ++ torn_down [] ∧
  effects (handle ResponseFinish (handle ResponseClose st1))
    = effects st1 ++ torn_down (channel st) ++ torn_down [] ∧
  count is_Emit_destroy (effects st1) = count is_Emit_destroy (effects st) ∧
  count is_Emit_destroy (torn_down (channel st) ++ torn_down []) = 2.
Proof.
  intros Hf Hr Hq Hb st1.
  assert (Hw : wired (channel st) (effects st) st1).
  { apply wired_run; [done|]. by apply wired_process. }
  destruct (both_signals_tear_down_twice _ _ _ Hw) as [H1 H2].
  split; [done|]. split; [done|]. split.
  - destruct Hw as (_ & _ & _ & n & -> & Hn).
    rewrite count_app, (count_quiet n Hn). lia.
  - unfold torn_down. rewrite !count_app. simpl.
    assert (Hmap : ∀ l : list (string * nat),
              count is_Emit_destroy (map (fun l => Notify l.2) l) = 0).
    { induction l as [|x l IH]; [done|]. exact IH. }
    unfold count in *. simpl. rewrite List.filter_app, length_app.
    unfold count in Hmap. rewrite Hmap. done.
Qed.

End Facts.

(** [render("hello")] on the sample request writes status 200 and returns
    ["hello"]; [render(42)] throws the structured error and writes
    nothing. *)
Example render_hello :
  let r := Request.render Sample.captured_stack (VStr "hello")
             Sample.incoming in
  r.1 = Returned (VStr "hello") ∧
  statuses (effects r.2) = [VNum 200] ∧
  (Request.render Sample.captured_stack (VNum 42) Sample.incoming).1
    = Thrown (VHttpError 500 (VStr "ResponseType must be string or buffer")
                (VRecord [("response", VNum 42)]) Sample.captured_stack).
Proof. vm_compute. repeat split. Qed.

Lemma body_accumulation_witness :
  let chunks := [VBuffer "a"; VBuffer "b"; VBuffer "c"] in
  let payload :=
    VStr (route Sample.users_route +:+
          Sample.Methods_text (method Sample.users_route)) in
  let st1 :=
    Sample.handle (RouterSettles (Returned Sample.users_route))
      (process Sample.incoming) in
  let st2 := Sample.run (map RequestData chunks) st1 in
  let st3 := Sample.handle RequestEnd st2 in
  if mutating (method Sample.users_route) && negb (isForwarded Sample.incoming)
  then
    request_on st1 = body_listeners Sample.users_route ∧
    promise st1 = AwaitingBody ∧
    statuses (effects st1) = statuses (effects Sample.incoming) ∧
    promise st2 = AwaitingBody ∧
    effects st2 = effects st1 ∧
    data st2 = data Sample.incoming ++ chunks ∧
    data st3 = data Sample.incoming ++ chunks ∧
    promise st3 = Settled (Returned payload) ∧
    effects st3 = effects st2 ++ rendered Sample.incoming payload
  else
    request_on st1 = [] ∧
    promise st1 = Settled (Returned payload) ∧
    (∃ log, effects st1 =
              effects Sample.incoming ++ log :: rendered Sample.incoming payload) ∧
    data st1 = data Sample.incoming ∧
    data st2 = data Sample.incoming ∧
    data st3 = data Sample.incoming.
Proof.
  exact (body_accumulation Sample.clean Sample.HttpError_toString
           Sample.captured_stack Sample.Methods_text Sample.invoke
           Sample.incoming Sample.users_route
           [VBuffer "a"; VBuffer "b"; VBuffer "c"] eq_refl).
Defined.

Lemma teardown_per_signal_witness :
  let before :=
    [ RouterSettles (Returned Sample.users_route);
      RequestData (VBuffer "a"); RequestEnd ] in
  let st1 := Sample.run before (process Sample.incoming) in
  effects (Sample.handle ResponseClose (Sample.handle ResponseFinish st1))
    = effects st1 ++ torn_down (channel Sample.incoming) ++ torn_down [] ∧
  effects (Sample.handle ResponseFinish (Sample.handle ResponseClose st1))
    = effects st1 ++ torn_down (channel Sample.incoming) ++ torn_down [] ∧
  count is_Emit_destroy (effects st1)
    = count is_Emit_destroy (effects Sample.incoming) ∧
  count is_Emit_destroy
    (torn_down (channel Sample.incoming) ++ torn_down []) = 2.
Proof.
  exact (teardown_per_signal Sample.clean Sample.HttpError_toString
           Sample.captured_stack Sample.Methods_text Sample.invoke
           Sample.incoming
           [ RouterSettles (Returned Sample.users_route);
             RequestData (VBuffer "a"); RequestEnd ]
           eq_refl eq_refl eq_refl eq_refl).
Defined.

Lemma recover_first_normalises_witness :
  ∃ m s,
    get_prop (VRecord [("message", VStr "boom"); ("stack", VStr "at x")])
      "message" = Returned m ∧
    get_prop (VRecord [("message", VStr "boom"); ("stack", VStr "at x")])
      "stack" = Returned s ∧
    Request.force_HttpError Sample.captured_stack
      (VRecord [("message", VStr "boom"); ("stack", VStr "at x")])
      = Returned (VHttpError 500 m (VRecord []) s) ∧
    statusCode
      (Request.recover_first Sample.clean Sample.HttpError_toString
         Sample.captured_stack Sample.invoke
         (VRecord [("message", VStr "boom"); ("stack", VStr "at x")])
         Sample.incoming).2 = VNum 500 ∧
    statuses
      (effects
         (Request.recover_first Sample.clean Sample.HttpError_toString
            Sample.captured_stack Sample.invoke
            (VRecord [("message", VStr "boom"); ("stack", VStr "at x")])
            Sample.incoming).2)
      = statuses (effects Sample.incoming) ++ [VNum 500].
Proof.
  exact (recover_first_normalises Sample.clean Sample.HttpError_toString
           Sample.captured_stack Sample.invoke
           (VRecord [("message", VStr "boom"); ("stack", VStr "at x")])
           Sample.incoming eq_refl eq_refl).
Defined.

Lemma rejection_is_rendered_witness :
  let v := VRecord [("message", VStr "boom"); ("stack", VStr "at x")] in
  let st' :=
    Sample.handle (RouterSettles (Thrown v)) (process Sample.incoming) in
  ∃ text new,
    promise st' = Settled (Returned (VStr text)) ∧
    effects st' = effects Sample.incoming ++ new ∧
    statuses new =
      [ match v with VHttpError code _ _ _ => VNum code | _ => VNum 500 end ].
Proof.
  exact (rejection_is_rendered Sample.clean Sample.HttpError_toString
           Sample.captured_stack Sample.Methods_text Sample.invoke
           (VRecord [("message", VStr "boom"); ("stack", VStr "at x")])
           Sample.incoming eq_refl).
Defined.

(** C3 as stated fails.  A PUT request that is not forwarded is processed,
    its body arrives, the response is rendered; then [finish] fires and then
    [close] (or the other way round).  [destroy] is emitted twice, not once;
    the listener on the event emitter is notified once. *)
Lemma finish_and_close_destroy_twice :
  let served :=
    Sample.run
      [ RouterSettles (Returned Sample.users_route);
        RequestData (VBuffer "a"); RequestEnd ]
      (process Sample.incoming) in
  isForwarded Sample.incoming = false ∧
  statuses (effects served) = [VNum 200] ∧
  count is_Emit_destroy (effects served) = 0 ∧
  count is_Emit_destroy
    (effects (Sample.run [ResponseFinish; ResponseClose] served)) = 2 ∧
  count is_Emit_destroy
    (effects (Sample.run [ResponseClose; ResponseFinish] served)) = 2 ∧
  count (is_Notify 7)
    (effects (Sample.run [ResponseFinish; ResponseClose] served)) = 1.
Proof. vm_compute. repeat split. Qed.

(** The rejection with [undefined] on the sample request: the promise is
    fulfilled and the only effect is the log entry of the last stage. *)
Example undefined_rejection_on_sample :
  let st' :=
    Sample.run [RouterSettles (Thrown VUndefined)] (process Sample.incoming) in
  promise st' = Settled (Returned VUndefined) ∧
  statuses (effects st') = [] ∧
  length (effects st') = 1.
Proof. vm_compute. repeat split. Qed.

(** The rejection with a plain [Error] and with an [HttpError] 404 on the
    sample request: one response each, with 500 and with 404. *)
Example error_rejections_on_sample :
  statuses (effects
    (Sample.run
       [RouterSettles
          (Thrown (VRecord [("message", VStr "boom"); ("stack", VStr "at x")]))]
       (process Sample.incoming))) = [VNum 500] ∧
  statuses (effects
    (Sample.run
       [RouterSettles
          (Thrown (VHttpError 404 (VStr "Not found") (VRecord []) VUndefined))]
       (process Sample.incoming))) = [VNum 404].
Proof. vm_compute. repeat split. Qed.

End RequestSpec.

(** * Further properties of the provider registry *)

Module InjectorLaws.

Import Injector InjectorSpec.

(** *** Binding and lookup *)

(** [set] then [get] on the same container gives the value back, whatever
    the ancestors bind, and [has] tells that the key is there. *)
Theorem get_after_set toString this k v h h' c :
  set this k v h = Some h' ->
  has this k h' = Some true ∧
  ∀ n, get toString (S n) this k c h' = Some (Returned v).
Proof.
  unfold set, has. intros H.
  destruct (injectors h !! this) as [o|]; [|done]. simpl in H.
  injection H as <-. split.
  - simpl. rewrite lookup_insert_eq. simpl. rewrite lookup_insert_eq.
    by rewrite bool_decide_eq_true_2.
  - intros n. simpl. rewrite lookup_insert_eq. simpl.
    by rewrite lookup_insert_eq.
Qed.

Lemma get_after_set_witness :
  let h' :=
    default empty_heap
      (set 1 (KToken "config") (SValue (VStr "inner")) Sample.one_child) in
  has 1 (KToken "config") h' = Some true ∧
  ∀ n, get Sample.toString (S n) 1 (KToken "config") None h'
       = Some (Returned (SValue (VStr "inner"))).
Proof.
  apply (get_after_set Sample.toString 1 (KToken "config")
           (SValue (VStr "inner")) Sample.one_child).
  vm_compute. reflexivity.
Defined.

(** [set] changes what [get] answers only for its own key, and only when
    asked on the container or on one that has it among its ancestors. *)
Theorem set_is_local toString this k v h h' c :
  set this k v h = Some h' ->
  ∀ n b k',
    k' ≠ k ∨ ¬ ancestor h b this ->
    get toString n b k' c h' = get toString n b k' c h.
Proof.
  unfold set. intros H.
  destruct (injectors h !! this) as [o|] eqn:Ho; [|done]. simpl in H.
  injection H as <-.
  induction n as [|n IH]; intros b k' Hcase; [done|]. simpl.
  destruct (decide (this = b)) as [<-|Hne].
  - destruct Hcase as [Hk|Hanc]; [|destruct Hanc; apply ancestor_self].
    rewrite lookup_insert_eq, Ho. simpl.
    rewrite lookup_insert_ne by done.
    destruct (_providers o !! k'); [done|].
    destruct (parent o) as [p|]; [|done]. apply IH. by left.
  - rewrite lookup_insert_ne by done.
    destruct (injectors h !! b) as [ob|] eqn:Hb; [|done]. simpl.
    destruct (_providers ob !! k'); [done|].
    destruct (parent ob) as [p|] eqn:Hp; [|done]. apply IH.
    destruct Hcase as [Hk|Hanc]; [by left|right].
    intros Hup. apply Hanc. by eapply ancestor_parent.
Qed.

Lemma set_is_local_witness :
  get Sample.toString 2 1 (KToken "other") None
    (default empty_heap
       (set 1 (KToken "config") (SValue (VStr "inner")) Sample.one_child))
  = get Sample.toString 2 1 (KToken "other") None Sample.one_child.
Proof.
  apply (set_is_local Sample.toString 1 (KToken "config")
           (SValue (VStr "inner")) Sample.one_child).
  - vm_compute. reflexivity.
  - left. discriminate.
Defined.

Lemma nearest_binding_binds h k a b :
  nearest_binding h k a b ->
  ∃ ob, injectors h !! b = Some ob ∧ is_Some (_providers ob !! k).
Proof. induction 1; eauto. Qed.

(** [get] answers with the binding of the nearest container, going up from
    the one asked, that binds the key; [has] looks at the container asked
    only. *)
Theorem get_finds_nearest_binding toString h k a b ob v c :
  nearest_binding h k a b ->
  injectors h !! b = Some ob ->
  _providers ob !! k = Some v ->
  has a k h = Some (bool_decide (a = b)) ∧
  ∃ n0, ∀ n, n0 ≤ n -> get toString n a k c h = Some (Returned v).
Proof.
  intros Hnear Hb Hv.
  induction Hnear as [a o Ha Hk | a o p b Ha Hk Hp Hnear IH].
  - assert (o = ob) as -> by congruence. split.
    + unfold has. rewrite Ha. simpl. rewrite Hv.
      by rewrite !bool_decide_eq_true_2.
    + exists 1. intros [|n] Hn; [lia|]. simpl. rewrite Ha. simpl.
      by rewrite Hv.
  - destruct (IH Hb) as [_ (n0 & Hget)]. split.
    + assert (Hab : a ≠ b).
      { intros ->. rewrite Ha in Hb. injection Hb as ->. congruence. }
      unfold has. rewrite Ha. simpl. rewrite Hk. f_equal.
      rewrite (bool_decide_eq_false_2 (a = b)) by done.
      apply bool_decide_eq_false_2, is_Some_None.
    + exists (S n0). intros [|n] Hn; [lia|]. simpl. rewrite Ha. simpl.
      rewrite Hk, Hp. apply Hget. lia.
Qed.

Lemma get_finds_nearest_binding_witness :
  has 1 (KToken "config") Sample.outer_only = Some (bool_decide (1 = 0)) ∧
  ∃ n0, ∀ n, n0 ≤ n ->
    get Sample.toString n 1 (KToken "config") None Sample.outer_only
    = Some (Returned (SValue (VStr "outer"))).
Proof.
  apply (get_finds_nearest_binding Sample.toString Sample.outer_only
           (KToken "config") 1 0
           {| _uid := "uid-root";
              _providers := <[KToken "config" := SValue (VStr "outer")]> ∅;
              _children := 0; parent := None |}).
  - eapply nearest_above;
      [vm_compute; reflexivity|vm_compute; reflexivity|reflexivity|].
    eapply nearest_here; [vm_compute; reflexivity|]. vm_compute. eauto.
  - vm_compute. reflexivity.
  - vm_compute. reflexivity.
Defined.

(** *** Removing a child *)

Lemma indexOf_from_found (l : list nat) x :
  ∀ i, x ∈ l ->
    ∃ pos : nat,
      JsArray.indexOf_from l x i = (i + Z.of_nat pos)%Z ∧
      pos < length l ∧
      take pos l ++ drop (S pos) l = remove_first x l.
Proof.
  induction l as [|y t IH]; intros i Hx; [by apply elem_of_nil in Hx|].
  simpl. destruct (decide (y = x)) as [->|Hne].
  - exists 0. simpl. split; [lia|]. split; [lia|]. by rewrite drop_0.
  - apply elem_of_cons in Hx as [->|Hx]; [done|].
    destruct (IH (i + 1)%Z Hx) as (pos & Hi & Hlen & Hrem).
    exists (S pos). split; [lia|]. split; [lia|]. simpl. by rewrite Hrem.
Qed.

Lemma indexOf_from_missing (l : list nat) x :
  ∀ i, x ∉ l -> JsArray.indexOf_from l x i = (-1)%Z.
Proof.
  induction l as [|y t IH]; intros i Hx; [done|]. simpl.
  apply not_elem_of_cons in Hx as [Hne Hx].
  destruct (decide (y = x)); [congruence|]. by apply IH.
Qed.

Lemma splice_last (l : list nat) : JsArray.splice (-1) 1 l = removelast l.
Proof.
  unfold JsArray.splice. simpl.
  induction l as [|y t _] using rev_ind; [done|].
  rewrite removelast_last, length_app. simpl.
  replace (Z.to_nat ((Z.of_nat (length t + 1) + -1) `max` 0)) with (length t)
    by lia.
  replace (Z.to_nat
             ((Z.of_nat (length t + 1) + -1) `max` 0 +
              1 `min` (Z.of_nat (length t + 1) -
                       (Z.of_nat (length t + 1) + -1) `max` 0)))
    with (S (length t)) by lia.
  rewrite take_app_length, drop_ge; [by rewrite app_nil_r|].
  rewrite length_app. simpl. lia.
Qed.

(** What stays in the array after
    [this._children.splice(this._children.indexOf(injector), 1)]: the array
    without the first [injector] when it is in it, and otherwise, because
    [indexOf] then answers -1, the array without its last element. *)
Lemma splice_indexOf (l : list nat) x :
  JsArray.splice (JsArray.indexOf l x) 1 l =
    if bool_decide (x ∈ l) then remove_first x l else removelast l.
Proof.
  unfold JsArray.indexOf. case_bool_decide as Hx.
  - destruct (indexOf_from_found l x 0 Hx) as (pos & -> & Hlen & <-).
    unfold JsArray.splice.
    replace (0 + Z.of_nat pos <? 0)%Z with false by lia.
    replace (Z.to_nat ((0 + Z.of_nat pos) `min` Z.of_nat (length l)))
      with pos by lia.
    replace (Z.to_nat
               ((0 + Z.of_nat pos) `min` Z.of_nat (length l) +
                (1 `max` 0) `min`
                  (Z.of_nat (length l) -
                   (0 + Z.of_nat pos) `min` Z.of_nat (length l))))
      with (S pos) by lia.
    done.
  - rewrite indexOf_from_missing by done. apply splice_last.
Qed.

(** [removeChild] takes one container out of the child array of [this] and
    touches nothing else: the first [injector] in the array when there is
    one, the last child when [injector] is not a child. *)
Theorem removeChild_takes_one this injector h o l :
  injectors h !! this = Some o ->
  arrays h !! _children o = Some l ->
  ∃ h',
    removeChild this injector h = Some h' ∧
    injectors h' = injectors h ∧
    arrays h' !! _children o =
      Some (if bool_decide (injector ∈ l) then remove_first injector l
            else removelast l) ∧
    ∀ r, r ≠ _children o -> arrays h' !! r = arrays h !! r.
Proof.
  intros Ho Hl. unfold removeChild. rewrite Ho. simpl. rewrite Hl. simpl.
  eexists. split; [done|]. split; [done|]. simpl. split.
  - by rewrite lookup_insert_eq, splice_indexOf.
  - intros r Hr. by rewrite lookup_insert_ne.
Qed.

Lemma removeChild_takes_one_witness :
  ∃ h',
    removeChild 0 7 Sample.two_children = Some h' ∧
    injectors h' = injectors Sample.two_children ∧
    arrays h' !! 0 =
      Some (if bool_decide (7 ∈ [1; 2]) then remove_first 7 [1; 2]
            else removelast [1; 2]) ∧
    ∀ r, r ≠ 0 -> arrays h' !! r = arrays Sample.two_children !! r.
Proof.
  apply (removeChild_takes_one 0 7 Sample.two_children
           {| _uid := "uid-root"; _providers := ∅; _children := 0;
              parent := None |} [1; 2]).
  - vm_compute. reflexivity.
  - vm_compute. reflexivity.
Defined.

Lemma remove_first_last x l : x ∉ l -> remove_first x (l ++ [x]) = l.
Proof.
  induction l as [|y l IH]; intros Hx; simpl.
  - by rewrite decide_True.
  - apply not_elem_of_cons in Hx as [Hxy Hx].
    rewrite decide_False by done. by rewrite IH.
Qed.

(** [setChild] and then [removeChild] of a container that was not a child
    before leave the store exactly as it was. *)
Theorem removeChild_undoes_setChild this injector h o l :
  injectors h !! this = Some o ->
  arrays h !! _children o = Some l ->
  injector ∉ l ->
  setChild this injector h ≫= removeChild this injector = Some h.
Proof.
  intros Ho Hl Hnew. unfold setChild. rewrite Ho. simpl. rewrite Hl. simpl.
  unfold removeChild. simpl. rewrite Ho. simpl. rewrite lookup_insert_eq.
  simpl. rewrite splice_indexOf, bool_decide_eq_true_2
    by (apply elem_of_app; right; constructor).
  rewrite remove_first_last by done.
  destruct h as [inj arr ins ev]. unfold set_array. simpl in *.
  rewrite insert_insert_eq. by rewrite insert_id.
Qed.

Lemma removeChild_undoes_setChild_witness :
  setChild 0 5 Sample.one_child ≫= removeChild 0 5 = Some Sample.one_child.
Proof.
  apply (removeChild_undoes_setChild 0 5 Sample.one_child Sample.root [1]).
  - vm_compute. reflexivity.
  - vm_compute. reflexivity.
  - intros H. apply elem_of_cons in H as [H|H]; [done|by inversion H].
Defined.

(** *** Teardown *)

Lemma destroyed_true c h :
  destroyed c h = true ↔
  ∃ o, injectors h !! c = Some o ∧ _providers o = ∅ ∧ parent o = None ∧
       arrays h !! _children o = Some [].
Proof.
  unfold destroyed. split.
  - destruct (injectors h !! c) as [o|]; [|done].
    intros [[H1 H2]%andb_prop H3]%andb_prop.
    apply bool_decide_eq_true in H1, H2, H3. eauto 6.
  - intros (o & -> & H1 & H2 & H3). by rewrite !bool_decide_eq_true_2.
Qed.

(** However the store looks, the container on which [destroy()] has
    finished reports the destroyed state: no bindings, no parent, no
    children. *)
Lemma destroy_destroyed fuel a h h' :
  destroy fuel a h = Some h' -> destroyed a h' = true.
Proof.
  destruct fuel as [|n]; [done|]. simpl. intros H.
  destruct (injectors h !! a) as [o|]; [|done]. simpl in H.
  destruct (match parent o with
            | Some p => removeChild p a h
            | None => Some h
            end) as [h1|]; [|done]. simpl in H.
  destruct (injectors h1 !! a) as [o1|]; [|done]. simpl in H.
  destruct (forEach (destroy n) (_children o1) h1) as [h2|]; [|done].
  simpl in H.
  destruct (injectors h2 !! a) as [o2|]; [|done]. simpl in H.
  rewrite !lookup_insert_eq in H. simpl in H.
  rewrite !lookup_insert_eq in H. simpl in H.
  injection H as <-. apply destroyed_true. eexists. simpl.
  rewrite lookup_insert_eq. split; [done|]. simpl.
  by rewrite lookup_insert_eq.
Qed.

Lemma keeps_destroyed_set_array c r l' h :
  destroyed c h = true ->
  (arrays h !! r = Some [] -> l' = []) ->
  destroyed c (set_array r l' h) = true.
Proof.
  intros (o & Ho & Hp & Hpar & Harr)%destroyed_true Hl.
  apply destroyed_true. exists o. simpl. repeat split; try done.
  destruct (decide (r = _children o)) as [->|Hne].
  - rewrite lookup_insert_eq. by rewrite Hl.
  - by rewrite lookup_insert_ne.
Qed.

Lemma keeps_destroyed_set_injector c a o h :
  a ≠ c -> destroyed c h = true -> destroyed c (set_injector a o h) = true.
Proof.
  intros Hne (oc & Ho & ?)%destroyed_true. apply destroyed_true.
  exists oc. simpl. by rewrite lookup_insert_ne.
Qed.

Lemma splice_nil start count : JsArray.splice start count [] = [].
Proof. unfold JsArray.splice. by rewrite take_nil, drop_nil. Qed.

Lemma forEach_from_keeps (I : Heap -> Prop)
    (cb : nat -> Heap -> option Heap) r :
  (∀ x h h', cb x h = Some h' -> I h -> I h') ->
  ∀ todo k h h', forEach_from cb r todo k h = Some h' -> I h -> I h'.
Proof.
  intros Hcb. induction todo as [|todo IH]; intros k h h' H Hi; simpl in H.
  - by injection H as <-.
  - destruct (arrays h !! r) as [l|]; [|done]. simpl in H.
    destruct (l !! k) as [x|]; [|by eapply IH].
    destruct (cb x h) as [h1|] eqn:Hx; [|done]. simpl in H.
    eapply IH; [exact H|]. by eapply Hcb.
Qed.

(** A container that reports the destroyed state keeps reporting it,
    whichever container is destroyed next. *)
Lemma destroy_keeps_destroyed c :
  ∀ fuel x h h',
    destroy fuel x h = Some h' -> destroyed c h = true ->
    destroyed c h' = true.
Proof.
  induction fuel as [|n IH]; intros x h h' H Hc; [done|].
  destruct (decide (x = c)) as [->|Hne];
    [by eapply destroy_destroyed|].
  simpl in H.
  destruct (injectors h !! x) as [o|]; [|done]. simpl in H.
  destruct (match parent o with
            | Some p => removeChild p x h
            | None => Some h
            end) as [h1|] eqn:H1; [|done]. simpl in H.
  assert (Hc1 : destroyed c h1 = true).
  { destruct (parent o) as [p|]; [|by injection H1 as <-].
    unfold removeChild in H1.
    destruct (injectors h !! p) as [op|]; [|done]. simpl in H1.
    destruct (arrays h !! _children op) as [l|] eqn:Hl; [|done].
    injection H1 as <-. apply keeps_destroyed_set_array; [done|].
    intros Hnil. rewrite Hl in Hnil. injection Hnil as ->.
    apply splice_nil. }
  destruct (injectors h1 !! x) as [o1|]; [|done]. simpl in H.
  destruct (forEach (destroy n) (_children o1) h1) as [h2|] eqn:H2; [|done].
  simpl in H.
  assert (Hc2 : destroyed c h2 = true).
  { unfold forEach in H2. destruct (arrays h1 !! _children o1); [|done].
    simpl in H2.
    eapply (forEach_from_keeps (fun h => destroyed c h = true));
      [|exact H2|exact Hc1].
    intros y hy hy' Hy. by apply IH with (x := y). }
  destruct (injectors h2 !! x) as [o2|] eqn:Hx2; [|done]. simpl in H.
  rewrite !lookup_insert_eq in H. simpl in H.
  rewrite !lookup_insert_eq in H. simpl in H.
  injection H as <-.
  do 3 (apply keeps_destroyed_set_injector; [done|]).
  apply keeps_destroyed_set_array; [done|].
  intros Hfresh. exfalso.
  apply (is_fresh (dom (arrays h2))). apply elem_of_dom. eauto.
Qed.

(** [destroy()] a second time on the same container finishes at once and
    changes no other container and no array of the store. *)
Theorem destroy_twice fuel a h h' :
  destroy fuel a h = Some h' ->
  ∀ n, ∃ h'',
    destroy (S n) a h' = Some h'' ∧
    destroyed a h'' = true ∧
    (∀ b, b ≠ a -> injectors h'' !! b = injectors h' !! b) ∧
    (∀ r, is_Some (arrays h' !! r) -> arrays h'' !! r = arrays h' !! r).
Proof.
  intros Hd n.
  apply destroy_destroyed, destroyed_true in Hd
    as (o & Ho & Hp & Hpar & Harr).
  assert (∃ h'', destroy (S n) a h' = Some h'' ∧
            injectors h'' =
              <[a := {| _uid := _uid o; _providers := ∅;
                        _children := fresh (dom (arrays h'));
                        parent := None |}]> (injectors h') ∧
            arrays h'' = <[fresh (dom (arrays h')) := []]> (arrays h'))
    as (h'' & Hd' & Hinj & Harrs).
  { simpl. rewrite Ho. simpl. rewrite Hpar. simpl. rewrite Ho. simpl.
    unfold forEach. rewrite Harr. simpl. rewrite Ho. simpl.
    rewrite !lookup_insert_eq. simpl. rewrite !lookup_insert_eq. simpl.
    eexists. split; [done|]. simpl. by rewrite !insert_insert_eq. }
  exists h''. split; [done|]. split; [by eapply destroy_destroyed|].
  split.
  - intros b Hb. by rewrite Hinj, lookup_insert_ne.
  - intros r Hr. rewrite Harrs, lookup_insert_ne; [done|].
    intros <-. apply (is_fresh (dom (arrays h'))). by apply elem_of_dom.
Qed.

Lemma destroy_twice_witness :
  ∃ h'',
    destroy (S 0) 1 (default empty_heap (destroy 2 1 Sample.shadowing))
      = Some h'' ∧
    destroyed 1 h'' = true ∧
    (∀ b, b ≠ 1 ->
       injectors h'' !! b =
       injectors (default empty_heap (destroy 2 1 Sample.shadowing)) !! b) ∧
    (∀ r, is_Some
            (arrays (default empty_heap (destroy 2 1 Sample.shadowing)) !! r) ->
       arrays h'' !! r =
       arrays (default empty_heap (destroy 2 1 Sample.shadowing)) !! r).
Proof.
  apply (destroy_twice 2 1 Sample.shadowing).
  vm_compute. reflexivity.
Defined.

(** The first child is never skipped: on a tree whose container [a] does
    not share its child array with its parent, [destroy()] on [a] leaves
    [a] and the child at index 0 in the destroyed state.  A container with
    one child therefore takes that child down with it. *)
Theorem destroy_reaches_first_child N h a o c rest :
  tree_shaped N h ->
  injectors h !! a = Some o ->
  arrays h !! _children o = Some (c :: rest) ->
  (∀ p op, parent o = Some p -> injectors h !! p = Some op ->
           _children op ≠ _children o) ->
  ∃ h', destroy (N - a) a h = Some h' ∧
        destroyed a h' = true ∧ destroyed c h' = true.
Proof.
  intros Hwf Ha Harr Hown.
  destruct (destroy_total N (N - a) a h Hwf (ex_intro _ o Ha) ltac:(lia))
    as (h' & Hd & _ & _).
  exists h'. split; [done|]. split; [by eapply destroy_destroyed|].
  destruct (Hwf a o Ha) as (HN & _ & Hkids). rewrite Harr in Hkids.
  apply Forall_cons in Hkids as [[Hac _] _].
  destruct (N - a) as [|n]; [done|].
  simpl in Hd. rewrite Ha in Hd. simpl in Hd.
  destruct (match parent o with
            | Some p => removeChild p a h
            | None => Some h
            end) as [h1|] eqn:H1; [|done]. simpl in Hd.
  assert (injectors h1 = injectors h ∧
          arrays h1 !! _children o = Some (c :: rest)) as [Hinj1 Harr1].
  { destruct (parent o) as [p|] eqn:Hp; [|by injection H1 as <-].
    unfold removeChild in H1.
    destruct (injectors h !! p) as [op|] eqn:Hop; [|done]. simpl in H1.
    destruct (arrays h !! _children op) as [l|]; [|done].
    injection H1 as <-. simpl. split; [done|].
    rewrite lookup_insert_ne; [done|]. by eapply Hown. }
  rewrite Hinj1, Ha in Hd. simpl in Hd.
  destruct (forEach (destroy n) (_children o) h1) as [h2|] eqn:H2; [|done].
  simpl in Hd.
  assert (Hc2 : destroyed c h2 = true).
  { unfold forEach in H2. rewrite Harr1 in H2. simpl in H2.
    rewrite Harr1 in H2. simpl in H2.
    destruct (destroy n c h1) as [hc|] eqn:Hc; [|done]. simpl in H2.
    eapply (forEach_from_keeps (fun h => destroyed c h = true));
      [|exact H2|by eapply destroy_destroyed].
    intros y hy hy' Hy. by apply destroy_keeps_destroyed with n y. }
  destruct (injectors h2 !! a) as [o2|]; [|done]. simpl in Hd.
  rewrite !lookup_insert_eq in Hd. simpl in Hd.
  rewrite !lookup_insert_eq in Hd. simpl in Hd.
  injection Hd as <-.
  do 3 (apply keeps_destroyed_set_injector; [lia|]).
  apply keeps_destroyed_set_array; [done|].
  intros Hfresh. exfalso.
  apply (is_fresh (dom (arrays h2))). apply elem_of_dom. eauto.
Qed.

Lemma destroy_reaches_first_child_witness :
  ∃ h', destroy (3 - 0) 0 Sample.two_children = Some h' ∧
        destroyed 0 h' = true ∧ destroyed 1 h' = true.
Proof.
  eapply (destroy_reaches_first_child 3 Sample.two_children 0 _ 1 [2]).
  - apply (bool_decide_unpack (tree_shaped 3 Sample.two_children)).
    vm_compute. exact I.
  - vm_compute. reflexivity.
  - vm_compute. reflexivity.
  - intros p op Hp. vm_compute in Hp. discriminate Hp.
Defined.

(** *** Resolution *)

Lemma mlift_set_binds this k v h u h' :
  mlift (set this k v) h = Some (Returned u, h') ->
  ∃ o, injectors h !! this = Some o ∧
       injectors h' !! this =
         Some {| _uid := _uid o; _providers := <[k := v]> (_providers o);
                 _children := _children o; parent := parent o |}.
Proof.
  unfold mlift, set. destruct (injectors h !! this) as [o|]; [|done].
  simpl. intros [= _ <-]. exists o. split; [done|]. simpl.
  apply lookup_insert_eq.
Qed.

Lemma get_bound toString n a k c h o v :
  injectors h !! a = Some o -> _providers o !! k = Some v ->
  get toString (S n) a k c h = Some (Returned v).
Proof. intros Ho Hk. simpl. rewrite Ho. simpl. by rewrite Hk. Qed.

Lemma has_bound a k h o v :
  injectors h !! a = Some o -> _providers o !! k = Some v ->
  has a k h = Some true.
Proof.
  intros Ho Hk. unfold has. rewrite Ho. simpl.
  rewrite bool_decide_eq_true_2; [done|]. by rewrite Hk.
Qed.

Lemma mmap_returns {A B} (f : A -> Heap -> option (Outcome string B)) h :
  ∀ l ys,
    Forall2 (fun x y => f x h = Some (Returned y)) l ys ->
    mmap (fun x => mread (f x)) l h = Some (Returned ys, h).
Proof.
  induction 1 as [|x y l ys Hx _ IH]; [done|].
  simpl. unfold mbind at 1, mread at 1. rewrite Hx.
  unfold mbind at 1. by rewrite IH.
Qed.

Lemma mmap_first_throw {A B} (f : A -> Heap -> option (Outcome string B)) h
    pre ys x post e :
  Forall2 (fun x y => f x h = Some (Returned y)) pre ys ->
  f x h = Some (Thrown e) ->
  mmap (fun x => mread (f x)) (pre ++ x :: post) h = Some (Thrown e, h).
Proof.
  intros Hpre Hx. induction Hpre as [|x0 y l ys Hx0 _ IH]; simpl.
  - unfold mbind, mread. by rewrite Hx.
  - unfold mbind at 1, mread at 1. rewrite Hx0.
    unfold mbind at 1. by rewrite IH.
Qed.

Section ResolveLaws.

Variable toString : string -> string.
Variable getConstructorProviders : Key -> list IProvider.
Variable mergeProviders : list IProvider -> list IProvider -> list IProvider.
Variable getConstructorInjectKeys : Key -> list Key.
Variable getConstructorPrototypeKeys : Class -> option (list IInjectKey).

Local Abbreviation resolve :=
  (createAndResolve toString getConstructorProviders mergeProviders
     getConstructorInjectKeys getConstructorPrototypeKeys).

(** What a finished [createAndResolve] leaves in the container.  The key
    of the provider is bound on the container itself.  For a value
    provider the result is the value and [get] gives it back.  For a class
    the container is bound under [Injector], and [get] of the provider's
    key gives the instance that was returned, unless that key is
    [Injector] itself, which the last [set] has taken over. *)
Theorem createAndResolve_binds_result fuel this provider providers h v h' :
  resolve fuel this provider providers h = Some (Returned v, h') ->
  has this (provide provider) h' = Some true ∧
  (isPresent (useValue provider) = true ->
     v = SValue (useValue provider) ∧
     ∀ n c, get toString (S n) this (provide provider) c h'
            = Some (Returned v)) ∧
  (isPresent (useValue provider) = false ->
     (∀ n c, get toString (S n) this Injector_class c h'
             = Some (Returned (SInjector this))) ∧
     (provide provider ≠ Injector_class ->
      ∀ n c, get toString (S n) this (provide provider) c h'
             = Some (Returned v))).
Proof.
  destruct fuel as [|n0]; [done|]. intros H. simpl in H.
  apply mbind_returned in H as ([] & h1 & _ & H).
  destruct (isPresent (useValue provider)) eqn:Hval.
  - apply mbind_returned in H as ([] & h2 & Hset & H).
    pose proof (mread_heap _ _ _ _ H) as ->.
    apply mlift_set_binds in Hset as (o & _ & Ho').
    assert (Hk : _providers
                   {| _uid := _uid o;
                      _providers := <[provide provider :=
                                        SValue (useValue provider)]>
                                      (_providers o);
                      _children := _children o; parent := parent o |}
                 !! provide provider = Some (SValue (useValue provider)))
      by apply lookup_insert_eq.
    split; [by eapply has_bound|]. split; [|done]. intros _.
    assert (v = SValue (useValue provider)) as ->.
    { unfold mread in H. destruct n0 as [|n1]; [done|].
      rewrite (get_bound _ _ _ _ _ _ _ _ Ho' Hk) in H. by injection H as <-. }
    split; [done|]. intros n c. by eapply get_bound.
  - apply mbind_returned in H as (args & h1' & _ & H).
    apply mbind_returned in H as (id & h2 & _ & H).
    apply mbind_returned in H as ([] & h3 & _ & H).
    apply mbind_returned in H as ([] & h4 & Hset & H).
    apply mbind_returned in H as ([] & h5 & Hhook & H).
    apply mbind_returned in H as ([] & h6 & Hset' & H).
    injection H as <- <-.
    apply mlift_set_binds in Hset as (o & _ & Ho4).
    assert (Hinj5 : injectors h5 = injectors h4).
    { destruct (useClass provider) as [c|]; [|done].
      destruct (instances h4 !! id) as [i|]; [|done].
      destruct (hook_guard c i); by injection Hhook as <-. }
    apply mlift_set_binds in Hset' as (o5 & Ho5 & Ho6).
    rewrite Hinj5, Ho4 in Ho5. injection Ho5 as <-. simpl in Ho6.
    split; [|split; [done|intros _; split]].
    + destruct (decide (provide provider = Injector_class)) as [Heq|Hne].
      * eapply has_bound; [exact Ho6|]. simpl.
        rewrite Heq. apply lookup_insert_eq.
      * eapply has_bound; [exact Ho6|]. simpl.
        rewrite lookup_insert_ne by done. apply lookup_insert_eq.
    + intros n c. eapply get_bound; [exact Ho6|]. apply lookup_insert_eq.
    + intros Hne n c. eapply get_bound; [exact Ho6|]. simpl.
      rewrite lookup_insert_ne by done. apply lookup_insert_eq.
Qed.

(** A constructor argument nobody provides.  On a container without parent,
    for a class with no providers to resolve first, the first constructor
    key that the container does not bind makes [createAndResolve] throw
    the "no provider ... on class" error with the identifier of the
    container.  Nothing has been constructed or bound by then: the store is
    as before. *)
Theorem createAndResolve_missing_dependency
    n this provider providers h o pre k post :
  mergeProviders (getConstructorProviders (provide provider)) providers = [] ->
  isPresent (useValue provider) = false ->
  getConstructorInjectKeys (provide provider) = pre ++ k :: post ->
  injectors h !! this = Some o ->
  parent o = None ->
  Forall (fun k' => is_Some (_providers o !! k')) pre ->
  _providers o !! k = None ->
  resolve (S (S n)) this provider providers h
    = Some (Thrown (no_provider_message toString k (Some provider) (_uid o)),
            h).
Proof.
  intros Hmerged Hval Hkeys Ho Hpar Hpre Hk.
  cbn [createAndResolve]. rewrite Hmerged, Hval, Hkeys. cbn [mforEach].
  unfold mbind at 1, mret at 1.
  assert (∃ ys, Forall2
                  (fun x y => get toString (S n) this x (Some provider) h
                              = Some (Returned y)) pre ys) as [ys Hys].
  { clear Hkeys. induction Hpre as [|k' pre [y Hy] _ [ys IH]].
    - exists []. constructor.
    - exists (y :: ys). constructor; [|done]. by eapply get_bound. }
  unfold mbind at 1.
  rewrite (mmap_first_throw
             (fun x => get toString (S n) this x (Some provider))
             h pre ys k post
             (no_provider_message toString k (Some provider) (_uid o)));
    [done|done|].
  simpl. by rewrite Ho; simpl; rewrite Hk, Hpar.
Qed.

Variable verifyProvider : Class -> IProvider.
Variable verifyProviders : list (IProvider + Class) -> list IProvider.

(** [Injector.createAndResolveChild] makes a container that was not in the
    store, with the given parent; the parent and its array of children are
    those it had.  When the resolution succeeds the child is appended to
    the parent's children.  When it throws, the child stays in the store
    and points at its parent, but the parent's children are as before. *)
Theorem createAndResolveChild_attaches fuel uid p c providers h op l r h' :
  injectors h !! p = Some op ->
  arrays h !! _children op = Some l ->
  createAndResolveChild toString getConstructorProviders mergeProviders
    getConstructorInjectKeys getConstructorPrototypeKeys verifyProvider
    verifyProviders fuel uid p c providers h = Some (r, h') ->
  let child := fresh (dom (injectors h)) in
  injectors h !! child = None ∧
  (∃ oc, injectors h' !! child = Some oc ∧ parent oc = Some p) ∧
  (∃ op', injectors h' !! p = Some op' ∧ _children op' = _children op ∧
          parent op' = parent op) ∧
  match r with
  | Returned a => a = child ∧ arrays h' !! _children op = Some (l ++ [child])
  | Thrown _ => arrays h' !! _children op = Some l
  end.
Proof.
  intros Hop Hl H child. unfold createAndResolveChild, new_Injector in H.
  fold child in H. simpl in H.
  set (rc := fresh (dom (arrays h))) in *.
  set (h1 := set_injector child _ (set_array rc [] h)) in *.
  assert (Hnew : injectors h !! child = None)
    by apply not_elem_of_dom, is_fresh.
  assert (Hpc : p ≠ child) by (intros ->; congruence).
  assert (Hrc : _children op ≠ rc).
  { intros Heq. rewrite Heq in Hl.
    assert (arrays h !! rc = None) by apply not_elem_of_dom, is_fresh.
    congruence. }
  split; [done|].
  unfold mbind at 1 in H.
  destruct (resolve fuel child (verifyProvider c) (verifyProviders providers)
              h1) as [[r1 h2]|] eqn:Hres; [|done].
  apply createAndResolve_only_bindings in Hres as [Harr Hinj].
  assert (Hc2 : ∃ oc, injectors h2 !! child = Some oc ∧ parent oc = Some p).
  { pose proof (Hinj child) as Hc. subst h1. simpl in Hc.
    rewrite lookup_insert_eq in Hc.
    destruct (injectors h2 !! child) as [oc|]; [|done].
    destruct Hc as [_ Hc]. eauto. }
  assert (Hp2 : ∃ op', injectors h2 !! p = Some op' ∧
                       _children op' = _children op ∧ parent op' = parent op).
  { pose proof (Hinj p) as Hp. subst h1. simpl in Hp.
    rewrite lookup_insert_ne, Hop in Hp by done.
    destruct (injectors h2 !! p) as [op'|]; [|done]. eauto. }
  assert (Hl2 : arrays h2 !! _children op = Some l).
  { rewrite Harr. subst h1. simpl. by rewrite lookup_insert_ne. }
  destruct r1 as [v|e].
  - destruct Hp2 as (op' & Hop' & Hch & Hpa).
    unfold mbind at 1, mlift, setChild in H. rewrite Hop' in H. simpl in H.
    rewrite Hch, Hl2 in H. simpl in H. injection H as <- <-. simpl.
    split; [done|]. split; [eauto|]. split; [done|].
    apply lookup_insert_eq.
  - injection H as <- <-. done.
Qed.

End ResolveLaws.

Lemma createAndResolve_binds_result_witness :
  has 0 (class_key Sample.Alpha) Sample.alpha_resolved = Some true ∧
  (isPresent (useValue (Sample.verifyProvider Sample.Alpha)) = true ->
     SInstance 0 = SValue (useValue (Sample.verifyProvider Sample.Alpha)) ∧
     ∀ n c, get Sample.toString (S n) 0 (class_key Sample.Alpha) c
              Sample.alpha_resolved
            = Some (Returned (SInstance 0))) ∧
  (isPresent (useValue (Sample.verifyProvider Sample.Alpha)) = false ->
     (∀ n c, get Sample.toString (S n) 0 Injector_class c
               Sample.alpha_resolved
             = Some (Returned (SInjector 0))) ∧
     (class_key Sample.Alpha ≠ Injector_class ->
      ∀ n c, get Sample.toString (S n) 0 (class_key Sample.Alpha) c
               Sample.alpha_resolved
             = Some (Returned (SInstance 0)))).
Proof.
  apply (createAndResolve_binds_result Sample.toString
           Sample.getConstructorProviders Sample.mergeProviders
           Sample.getConstructorInjectKeys Sample.getConstructorPrototypeKeys
           2 0 (Sample.verifyProvider Sample.Alpha) [] Sample.root_only
           (SInstance 0) Sample.alpha_resolved).
  vm_compute. reflexivity.
Defined.

Lemma createAndResolve_missing_dependency_witness :
  createAndResolve Sample.toString Sample.no_providers Sample.mergeProviders
    Sample.getConstructorInjectKeys Sample.getConstructorPrototypeKeys
    (S (S 0)) 0 (Sample.verifyProvider Sample.Beta) [] Sample.root_only
  = Some (Thrown (no_provider_message Sample.toString
                    (class_key Sample.Alpha)
                    (Some (Sample.verifyProvider Sample.Beta))
                    (_uid Sample.root)),
          Sample.root_only).
Proof.
  apply (createAndResolve_missing_dependency Sample.toString
           Sample.no_providers Sample.mergeProviders
           Sample.getConstructorInjectKeys Sample.getConstructorPrototypeKeys
           0 0 (Sample.verifyProvider Sample.Beta) [] Sample.root_only
           Sample.root [] (class_key Sample.Alpha) []).
  - reflexivity.
  - reflexivity.
  - reflexivity.
  - vm_compute. reflexivity.
  - reflexivity.
  - constructor.
  - reflexivity.
Defined.

Lemma createAndResolveChild_attaches_witness :
  let child := fresh (dom (injectors Sample.root_only)) in
  injectors Sample.root_only !! child = None ∧
  (∃ oc, injectors Sample.one_child !! child = Some oc ∧
         parent oc = Some 0) ∧
  (∃ op', injectors Sample.one_child !! 0 = Some op' ∧
          _children op' = _children Sample.root ∧
          parent op' = parent Sample.root) ∧
  (1 = child ∧
   arrays Sample.one_child !! _children Sample.root = Some ([] ++ [child])).
Proof.
  apply (createAndResolveChild_attaches Sample.toString
           Sample.getConstructorProviders Sample.mergeProviders
           Sample.getConstructorInjectKeys Sample.getConstructorPrototypeKeys
           Sample.verifyProvider Sample.verifyProviders
           3 "uid-first" 0 Sample.Alpha [] Sample.root_only Sample.root []
           (Returned 1) Sample.one_child).
  - vm_compute. reflexivity.
  - vm_compute. reflexivity.
  - vm_compute. reflexivity.
Defined.

Lemma createAndResolveChild_tree_shaped_witness :
  tree_shaped (1 `max` 2) Sample.one_child.
Proof.
  apply (createAndResolveChild_tree_shaped Sample.toString
           Sample.getConstructorProviders Sample.mergeProviders
           Sample.getConstructorInjectKeys Sample.getConstructorPrototypeKeys
           Sample.verifyProvider Sample.verifyProviders
           1 3 "uid-first" 0 Sample.Alpha [] Sample.root_only 1
           Sample.one_child).
  - apply (bool_decide_unpack (tree_shaped 1 Sample.root_only)).
    vm_compute. exact I.
  - vm_compute. eauto.
  - vm_compute. reflexivity.
Defined.

Lemma static_createAndResolve_tree_shaped_witness :
  tree_shaped (0 `max` 1)
    (Sample.heap_of
       (static_createAndResolve Sample.toString
          Sample.getConstructorProviders Sample.mergeProviders
          Sample.getConstructorInjectKeys Sample.getConstructorPrototypeKeys
          Sample.verifyProvider Sample.verifyProviders
          2 "uid-root" Sample.Alpha [] empty_heap)).
Proof.
  apply (static_createAndResolve_tree_shaped Sample.toString
           Sample.getConstructorProviders Sample.mergeProviders
           Sample.getConstructorInjectKeys Sample.getConstructorPrototypeKeys
           Sample.verifyProvider Sample.verifyProviders
           0 2 "uid-root" Sample.Alpha [] empty_heap 0).
  - apply tree_shaped_empty.
  - vm_compute. reflexivity.
Defined.

End InjectorLaws.

(** * Further properties of the request orchestrator *)

Module RequestLaws.

Import Request RequestSpec.

Lemma heads_with_effect e st :
  heads (with_effect e st) = heads st + (if is_WriteHead e then 1 else 0).
Proof.
  unfold heads. simpl. rewrite count_app. unfold count. simpl.
  by destruct (is_WriteHead e).
Qed.

Lemma silent_pret {A} (a : A) : silent (pret a).
Proof. done. Qed.

Lemma silent_pthrow {A} e : silent (@pthrow A e).
Proof. done. Qed.

Lemma silent_plift {A} (o : Outcome Value A) : silent (plift o).
Proof. done. Qed.

Lemma silent_read {A} (f : Request -> A) : silent (read f).
Proof. done. Qed.

Lemma silent_write_statusCode c : silent (write_statusCode c).
Proof. done. Qed.

Lemma silent_effect e : is_WriteHead e = false -> silent (effect e).
Proof.
  intros He st. unfold effect. simpl. rewrite heads_with_effect, He. lia.
Qed.

Lemma silent_pbind {A B} (m : P A) (f : A -> P B) :
  silent m -> (∀ a, silent (f a)) -> silent (pbind m f).
Proof.
  intros Hm Hf st. unfold pbind. specialize (Hm st).
  destruct (m st) as [[a|e] st1]; simpl in *; [|done].
  by rewrite Hf.
Qed.

Lemma answers_once_pbind {A B} (m : P A) (f : A -> P B) :
  silent m -> (∀ a, answers_once (f a)) -> answers_once (pbind m f).
Proof.
  intros Hm Hf st. unfold pbind. specialize (Hm st).
  destruct (m st) as [[a|e] st1]; simpl in *; [|done].
  specialize (Hf a st1). destruct (f a st1) as [[b|e] st2]; lia.
Qed.

Lemma answers_once_pcatch {A} (m : P A) (f : Value -> P A) :
  answers_once m -> (∀ e, answers_once (f e)) -> answers_once (pcatch m f).
Proof.
  intros Hm Hf st. unfold pcatch. specialize (Hm st).
  destruct (m st) as [[a|e] st1]; [done|].
  specialize (Hf e st1). destruct (f e st1) as [[b|e'] st2]; lia.
Qed.

Ltac silent_step :=
  first
    [ apply silent_pret | apply silent_pthrow | apply silent_plift
    | apply silent_read | apply silent_write_statusCode
    | apply silent_effect; reflexivity
    | apply silent_pbind; [|intros ?] ].

Lemma leaves_body_pret {A} (a : A) : leaves_body (pret a).
Proof. done. Qed.

Lemma leaves_body_pthrow {A} e : leaves_body (@pthrow A e).
Proof. done. Qed.

Lemma leaves_body_plift {A} (o : Outcome Value A) : leaves_body (plift o).
Proof. done. Qed.

Lemma leaves_body_read {A} (f : Request -> A) : leaves_body (read f).
Proof. done. Qed.

Lemma leaves_body_write_statusCode c : leaves_body (write_statusCode c).
Proof. done. Qed.

Lemma leaves_body_effect e : leaves_body (effect e).
Proof. done. Qed.

Lemma leaves_body_pbind {A B} (m : P A) (f : A -> P B) :
  leaves_body m -> (∀ a, leaves_body (f a)) -> leaves_body (pbind m f).
Proof.
  intros Hm Hf st. unfold pbind. specialize (Hm st).
  destruct (m st) as [[a|e] st1]; simpl in *; [|done].
  destruct (Hf a st1) as [-> ->]. done.
Qed.

Lemma leaves_body_pcatch {A} (m : P A) (f : Value -> P A) :
  leaves_body m -> (∀ e, leaves_body (f e)) -> leaves_body (pcatch m f).
Proof.
  intros Hm Hf st. unfold pcatch. specialize (Hm st).
  destruct (m st) as [[a|e] st1]; simpl in *; [done|].
  destruct (Hf e st1) as [-> ->]. done.
Qed.

Ltac leaves_body_step :=
  first
    [ apply leaves_body_pret | apply leaves_body_pthrow
    | apply leaves_body_plift | apply leaves_body_read
    | apply leaves_body_write_statusCode | apply leaves_body_effect
    | apply leaves_body_pbind; [|intros ?]
    | apply leaves_body_pcatch; [|intros ?] ].

Lemma count_notify_quiet n l :
  forallb quiet_effect l = true -> count (is_Notify n) l = 0.
Proof.
  unfold count. induction l as [|e l IH]; [done|]. simpl.
  intros [He Hl]%andb_prop. destruct e; simpl in *; try discriminate;
    by apply IH.
Qed.

Lemma count_notify_torn_down n ch :
  count (is_Notify n) (torn_down ch) = registered n ch.
Proof.
  unfold torn_down, registered, count. simpl.
  rewrite List.filter_app, length_app. simpl. rewrite Nat.add_0_r.
  induction ch as [|[name m] ch IH]; [done|]. simpl.
  destruct (String.eqb name "destroy"); simpl; [|exact IH].
  destruct (Nat.eqb m n); simpl; by rewrite IH.
Qed.

Section Laws.

Variable clean : string -> string.
Variable HttpError_toString : Value -> string.
Variable captured_stack : Value.
Variable Methods_text : Methods -> string.
Variable invoke : Value -> string -> Outcome Value Value.

Local Abbreviation render := (Request.render captured_stack).
Local Abbreviation chain :=
  (Request.chain clean HttpError_toString captured_stack Methods_text invoke).
Local Abbreviation settle :=
  (Request.settle clean HttpError_toString captured_stack Methods_text invoke).
Local Abbreviation run_callback :=
  (Request.run_callback clean HttpError_toString captured_stack Methods_text
     invoke).
Local Abbreviation handle :=
  (Request.handle clean HttpError_toString captured_stack Methods_text invoke).
Local Abbreviation run :=
  (Request.run clean HttpError_toString captured_stack Methods_text invoke).

(** *** Invariants of the signal loop *)

Section Invariant.

Variable I : Request -> Prop.
Hypothesis I_request_on : ∀ l st, I st -> I (with_request_on l st).
Hypothesis I_response_on : ∀ l st, I st -> I (with_response_on l st).
Hypothesis I_data : ∀ d st, I st -> I (with_data d st).
Hypothesis I_log : ∀ lv m c st, I st -> I (with_effect (Log lv m c) st).
Hypothesis I_await :
  ∀ st, I st -> promise st = AwaitingRouter ->
        I (with_promise AwaitingBody st).
Hypothesis I_settle :
  ∀ r st, I st -> promise st = AwaitingRouter ∨ promise st = AwaitingBody ->
          I (settle r st).
Hypothesis I_destroy : ∀ st, I st -> I (destroy st).

Lemma invariant_callbacks arg :
  ∀ fired st,
    I st ->
    I (foldl (fun s (l : Listener) => run_callback (callback l) arg s)
         st fired).
Proof.
  induction fired as [|l fired IH]; intros st Hi; [done|].
  simpl. apply IH. unfold Request.run_callback.
  destruct (callback l); [by apply I_destroy|by apply I_data|].
  destruct (promise st) eqn:Hp; try done. apply I_settle; auto.
Qed.

Lemma invariant_handle s st : I st -> I (handle s st).
Proof.
  intros Hi. destruct s as [r|chunk| | |]; simpl.
  - unfold router_settles. destruct (promise st) eqn:Hp; try done.
    destruct r as [r|e]; [|apply I_settle; auto].
    rewrite on_route_result.
    destruct (mutating (method r) && negb (isForwarded st)).
    + apply I_await; [|done]. apply I_request_on. by apply I_log.
    + apply I_settle; [by apply I_log|]. by left.
  - apply invariant_callbacks. by apply I_request_on.
  - apply invariant_callbacks. by apply I_request_on.
  - apply invariant_callbacks. by apply I_response_on.
  - apply invariant_callbacks. by apply I_response_on.
Qed.

Lemma invariant_run : ∀ signals st, I st -> I (run signals st).
Proof.
  induction signals as [|s signals IH]; intros st Hi; [done|].
  unfold Request.run. simpl. apply IH. by apply invariant_handle.
Qed.

End Invariant.

(** *** One response head *)

Lemma answers_once_render response : answers_once (render response).
Proof.
  intros st. unfold Request.render, pbind, read, effect, pret, pthrow.
  simpl. destruct (isString response || instanceof_Buffer response); simpl;
    rewrite !heads_with_effect; simpl; lia.
Qed.

Ltac once_step :=
  first
    [ apply answers_once_render
    | apply answers_once_pcatch; [|intros ?]
    | apply answers_once_pbind; [repeat silent_step|intros ?] ].

Lemma chain_heads r st : heads (chain r st).2 ≤ heads st + 1.
Proof.
  unfold Request.chain.
  set (m := pcatch (pcatch (pbind _ _) _) _).
  assert (Hm : answers_once m).
  { subst m. unfold Request.recover_first, recover_second, render_route.
    repeat once_step. }
  assert (Hl : ∀ e, silent (recover_last e)).
  { intros e. unfold recover_last. repeat silent_step. }
  unfold pcatch at 1. specialize (Hm st).
  destruct (m st) as [[a|e] st1]; simpl; [lia|].
  rewrite Hl. lia.
Qed.

Lemma notify_promise (listening : list (string * nat)) :
  ∀ st,
    promise (foldl (fun s l => with_effect (Notify l.2) s) st listening)
    = promise st.
Proof.
  induction listening as [|l ls IH]; intros st; [done|].
  simpl. by rewrite IH.
Qed.

Lemma heads_destroy st :
  heads (destroy st) = heads st ∧ promise (destroy st) = promise st.
Proof.
  destruct (destroy_effects st) as (He & _). split.
  - unfold heads. rewrite He, count_app. unfold torn_down.
    assert (Hq : ∀ l : list (string * nat),
              count is_WriteHead (map (fun l => Notify l.2) l ++
                                  [RemoveAllListeners]) = 0).
    { induction l as [|x l IH]; [done|]. exact IH. }
    unfold count in *. simpl. rewrite Hq. lia.
  - unfold destroy. simpl. by rewrite notify_promise.
Qed.

(** Whatever the router, the request and the response signal after
    [process], and whatever listeners are in place, the orchestrator writes
    at most one response head. *)
Theorem response_head_at_most_once signals st :
  heads (run signals (process st)) ≤ heads st + 1.
Proof.
  assert (Hinv : head_budget (heads st) (run signals (process st))).
  { apply invariant_run.
    - by intros l s.
    - by intros l s.
    - by intros d s.
    - intros lv m c s. unfold head_budget.
      rewrite heads_with_effect. simpl. by rewrite Nat.add_0_r.
    - intros s Hs Hp. unfold head_budget in *. simpl. by rewrite Hp in Hs.
    - intros r s Hs Hp. unfold head_budget in *. unfold Request.settle.
      pose proof (chain_heads r s) as Hc.
      destruct (chain r s) as [o s']. simpl in *.
      change (heads (with_promise (Settled o) s')) with (heads s').
      destruct Hp as [Hp|Hp]; rewrite Hp in Hs; lia.
    - intros s Hs. unfold head_budget in *.
      destruct (heads_destroy s) as [-> ->]. done.
    - destruct (process_keeps st) as (Hp & _ & _ & He & _).
      unfold head_budget, heads. by rewrite Hp, He. }
  unfold head_budget in Hinv.
  destruct (promise (run signals (process st))); lia.
Qed.

(** *** Listeners of the event emitter *)

(** The listeners registered for [destroy] on the event emitter are told
    at most once each.  Whatever is signalled after [process], and whatever
    listeners are in place: the notifications a listener has had and the
    registrations it still has add up to what they were. *)
Theorem destroy_listeners_told_once signals st n :
  count (is_Notify n) (effects (run signals (process st)))
  + registered n (channel (run signals (process st)))
  = count (is_Notify n) (effects st) + registered n (channel st).
Proof.
  apply (invariant_run
           (fun s => count (is_Notify n) (effects s)
                     + registered n (channel s)
                     = count (is_Notify n) (effects st)
                       + registered n (channel st))).
  - by intros l s.
  - by intros l s.
  - by intros d s.
  - intros lv m c s Hs. rewrite <- Hs. simpl. rewrite count_app.
    unfold count at 2. simpl. lia.
  - by intros s.
  - intros r s Hs _. rewrite <- Hs.
    destruct (steady_settle clean HttpError_toString captured_stack
                Methods_text invoke r s) as (_ & _ & -> & new & -> & Hq).
    rewrite count_app, (count_notify_quiet n new Hq).
    by rewrite Nat.add_0_r.
  - intros s Hs. rewrite <- Hs.
    destruct (destroy_effects s) as (-> & _ & ->).
    rewrite count_app, count_notify_torn_down.
    change (registered n []) with 0. by rewrite Nat.add_0_r.
  - destruct (process_keeps st) as (_ & _ & _ & -> & _ & _ & _ & ->). done.
Qed.

(** *** Forwarded requests *)

Lemma leaves_body_chain r : leaves_body (chain r).
Proof.
  unfold Request.chain, Request.recover_first, recover_second, recover_last,
    render_route, Request.render.
  repeat leaves_body_step.
  all: destruct (isString _ || instanceof_Buffer _); repeat leaves_body_step.
Qed.

Lemma settle_forwarded r st :
  isForwarded (settle r st) = isForwarded st ∧
  data (settle r st) = data st ∧
  steady st (settle r st).
Proof.
  split; [|split]; [| |apply steady_settle].
  - unfold Request.settle. pose proof (leaves_body_chain r st) as [H _].
    by destruct (chain r st).
  - unfold Request.settle. pose proof (leaves_body_chain r st) as [_ H].
    by destruct (chain r st).
Qed.

Lemma handle_forwarded s st :
  isForwarded st = true -> response_on st = [] -> request_on st = [] ->
  isForwarded (handle s st) = true ∧
  data (handle s st) = data st ∧
  steady st (handle s st).
Proof.
  intros Hf Hr Hq.
  assert (Hsame : isForwarded st = true ∧ data st = data st ∧ steady st st)
    by (split; [done|]; split; [done|]; apply steady_refl).
  destruct s as [r|chunk| | |]; simpl.
  - unfold router_settles. destruct (promise st); try done.
    + destruct r as [r|e].
      * rewrite on_route_result, Hf, andb_false_r.
        destruct (settle_forwarded (Returned r)
                    (with_effect (route_logged Methods_text r st) st))
          as (-> & -> & Hs).
        split; [done|]. split; [done|].
        eapply steady_trans; [|exact Hs].
        repeat split. by exists [route_logged Methods_text r st].
      * destruct (settle_forwarded (Thrown e) st) as (-> & -> & Hs). done.
  - unfold request_emit. rewrite Hq. simpl.
    split; [done|]. split; [done|]. repeat split; try done.
    exists []. by rewrite app_nil_r.
  - unfold request_emit. rewrite Hq. simpl.
    split; [done|]. split; [done|]. repeat split; try done.
    exists []. by rewrite app_nil_r.
  - unfold response_emit. rewrite Hr. simpl.
    split; [done|]. split; [done|]. repeat split; try done.
    exists []. by rewrite app_nil_r.
  - unfold response_emit. rewrite Hr. simpl.
    split; [done|]. split; [done|]. repeat split; try done.
    exists []. by rewrite app_nil_r.
Qed.

Lemma run_forwarded :
  ∀ signals st,
    isForwarded st = true -> response_on st = [] -> request_on st = [] ->
    isForwarded (run signals st) = true ∧
    data (run signals st) = data st ∧
    steady st (run signals st).
Proof.
  induction signals as [|s signals IH]; intros st Hf Hr Hq.
  - split; [done|]. split; [done|]. apply steady_refl.
  - destruct (handle_forwarded s st Hf Hr Hq) as (Hf1 & Hd1 & Hs1).
    pose proof Hs1 as (Hr1 & Hq1 & _).
    destruct (IH (handle s st) Hf1 ltac:(congruence) ltac:(congruence))
      as (Hf2 & Hd2 & Hs2).
    unfold Request.run in *. simpl.
    split; [done|]. split; [congruence|]. by eapply steady_trans.
Qed.

(** A forwarded request is left to the orchestrator that forwarded it.
    After [process] on a forwarded orchestrator, whatever is signalled, no
    listener is put on the request or on the response, the body buffer stays
    as it is, and nothing is emitted to the listeners of the event emitter,
    which all stay registered: [destroy] never runs. *)
Theorem forwarded_never_torn_down signals st :
  isForwarded st = true ->
  response_on st = [] ->
  request_on st = [] ->
  let st' := run signals (process st) in
  response_on st' = [] ∧
  request_on st' = [] ∧
  data st' = data st ∧
  channel st' = channel st ∧
  ∃ new, effects st' = effects st ++ new ∧ forallb quiet_effect new = true.
Proof.
  intros Hf Hr Hq st'.
  assert (Hp : process st = with_promise AwaitingRouter st)
    by (unfold process; by rewrite Hf).
  destruct (run_forwarded signals (process st))
    as (_ & Hd & Hr' & Hq' & Hc & Hn); [by rewrite Hp..|].
  fold st' in Hd, Hr', Hq', Hc, Hn. rewrite Hp in *. simpl in *.
  split; [congruence|]. split; [congruence|]. done.
Qed.

End Laws.

Lemma forwarded_never_torn_down_witness :
  let st' :=
    Sample.run
      [ RouterSettles (Returned Sample.users_route);
        RequestData (VBuffer "a"); RequestEnd; ResponseFinish;
        ResponseClose ]
      (process Sample.forwarded) in
  response_on st' = [] ∧
  request_on st' = [] ∧
  data st' = data Sample.forwarded ∧
  channel st' = channel Sample.forwarded ∧
  ∃ new, effects st' = effects Sample.forwarded ++ new ∧
         forallb quiet_effect new = true.
Proof.
  exact (forwarded_never_torn_down Sample.clean Sample.HttpError_toString
           Sample.captured_stack Sample.Methods_text Sample.invoke
           [ RouterSettles (Returned Sample.users_route);
             RequestData (VBuffer "a"); RequestEnd; ResponseFinish;
             ResponseClose ]
           Sample.forwarded eq_refl eq_refl eq_refl).
Defined.

End RequestLaws.
